(** * Terraform provider core: helper/schema Provider, the AWS structure
      helpers and config.Config.Validate, embedded in Rocq.

    Go packages are rendered as modules ([schema], [aws], [config]).  Shared
    Go notions come first: nilable pointers, panics, [error] values, the
    unspecified iteration order of [range] over a map, string comparison and
    the standard library's [sort].                                         *)

From Stdlib Require Import Ascii.
From stdpp Require Import base option list gmap strings sorting.

Local Open Scope string_scope.
Local Open Scope list_scope.
#[local] Set Warnings "-clear-no-such-hyp".

(** ** Go runtime notions *)

(** A Go pointer is either nil or addresses a value. *)
Abbreviation ptr A := (option A) (only parsing).

(** A Go [error] value carries its message; the nil error is [None]. *)
Definition error : Type := string.

(** [fmt.Errorf] and [fmt.Sprintf] with [%s] verbs splice strings, written
    with [+:+] below. *)

(** Run-time panics the modelled code can raise. *)
Inductive panic : Type :=
  | NilDereference      (* invalid memory address or nil pointer dereference *)
  | BadTypeAssertion.   (* interface conversion failed *)

Inductive outcome (A : Type) : Type :=
  | Returns (a : A)
  | Panics (why : panic).
Arguments Returns {A} a.
Arguments Panics {A} why.

Definition obind {A B} (m : outcome A) (k : A → outcome B) : outcome B :=
  match m with
  | Returns a => k a
  | Panics why => Panics why
  end.

Notation "x ←! m ; k" := (obind m (λ x, k))
  (at level 20, m at level 100, k at level 200, right associativity,
   format "x  ←!  m ;  '/' k").

(** Field selection through a pointer. *)
Definition deref {A} (p : ptr A) : outcome A :=
  match p with
  | Some a => Returns a
  | None => Panics NilDereference
  end.

Definition returns {A} (m : outcome A) : Prop := ∃ a, m = Returns a.

(** A value held in a Go [interface{}]: nil, a string, an integer, a
    slice, or a map keyed by strings. *)
#[local] Set Warnings "-register-all".
Inductive value : Type :=
  | VNil
  | VString (s : string)
  | VInt (n : Z)
  | VList (l : list value)
  | VMap (m : gmap string value)            (* map[string]interface{} *)
  | VStringMap (m : gmap string string).    (* map[string]string *)
#[local] Set Warnings "register-all".

(** ** Iteration order of [range] over a map

    Go leaves the order in which [range] visits a map unspecified, and it
    may differ from one loop to the next.  A [ranger] is one admissible
    choice of visiting order: any enumeration of the entries. *)
Record ranger : Type := {
  visit : ∀ (K : Type) `{Countable K} (V : Type), gmap K V → list (K * V);
  visit_perm : ∀ (K : Type) `{Countable K} (V : Type) (m : gmap K V),
    visit K V m ≡ₚ map_to_list m
}.
Arguments visit _ {K _ _ V} _.

Program Definition ascending_ranger : ranger :=
  {| visit K _ _ V m := map_to_list m |}.
Next Obligation. done. Qed.

Program Definition descending_ranger : ranger :=
  {| visit K _ _ V m := reverse (map_to_list m) |}.
Next Obligation. intros. by rewrite reverse_Permutation. Qed.

Lemma visit_elem_of (rg : ranger) `{Countable K} {V} (m : gmap K V) k v :
  (k, v) ∈ visit rg m ↔ m !! k = Some v.
Proof. by rewrite (visit_perm rg), elem_of_map_to_list. Qed.

Lemma visit_NoDup_fst (rg : ranger) `{Countable K} {V} (m : gmap K V) :
  NoDup (visit rg m).*1.
Proof.
  rewrite (visit_perm rg). apply NoDup_fst_map_to_list.
Qed.

(** ** String order

    Go compares strings byte by byte; [String.compare] does the same on
    the byte values of the characters. *)
Definition str_lt (a b : string) : bool := String.ltb a b.

(** ** [sort.Sort]

    The standard library is not part of the repository.  [insertionSort]
    is the routine [sort.Sort] runs on every slice shorter than seven
    elements: the element at index [i] is swapped leftwards while [Less]
    holds against its left neighbour.  [sift] is that inner loop over the
    already processed prefix, kept in reverse so its last element comes
    first. *)
Section sort.
Context {A : Type} (Less : A → A → bool).

Fixpoint sift (x : A) (rprefix : list A) : list A :=
  match rprefix with
  | y :: rest => if Less x y then y :: sift x rest else x :: rprefix
  | [] => [x]
  end.

Definition insertionSort (data : list A) : list A :=
  reverse (foldl (λ rprefix x, sift x rprefix) [] data).

Definition sort_Sort : list A → list A := insertionSort.
End sort.

(** [sort.Strings].  On longer slices [sort.Sort] switches to quicksort
    and heapsort; the strings are totally ordered, so every sorting
    routine returns the one ascending arrangement ([ascending_unique]
    below) and the insertion sort stands for [sort.Strings] at every
    length. *)
Definition sort_Strings : list string → list string := sort_Sort str_lt.

(** ** Facts about the string order and about sorting *)

Lemma ascii_compare_lt_trans a b c :
  Ascii.compare a b = Lt → Ascii.compare b c = Lt → Ascii.compare a c = Lt.
Proof.
  unfold Ascii.compare. rewrite !N.compare_lt_iff. lia.
Qed.

Lemma ascii_compare_refl a : Ascii.compare a a = Eq.
Proof. unfold Ascii.compare. apply N.compare_refl. Qed.

Lemma string_compare_refl s : String.compare s s = Eq.
Proof.
  induction s as [|a s IH]; simpl; [done|]. by rewrite ascii_compare_refl.
Qed.

Lemma string_compare_lt_trans s1 s2 s3 :
  String.compare s1 s2 = Lt → String.compare s2 s3 = Lt →
  String.compare s1 s3 = Lt.
Proof.
  revert s2 s3. induction s1 as [|a s1 IH]; intros [|b s2] [|c s3]; simpl;
    try done.
  destruct (Ascii.compare a b) eqn:Hab; try done;
    destruct (Ascii.compare b c) eqn:Hbc; try done; intros H12 H23.
  - apply Ascii.compare_eq_iff in Hab, Hbc. subst.
    rewrite ascii_compare_refl. eauto.
  - apply Ascii.compare_eq_iff in Hab. subst. by rewrite Hbc.
  - apply Ascii.compare_eq_iff in Hbc. subst. by rewrite Hab.
  - by rewrite (ascii_compare_lt_trans _ _ _ Hab Hbc).
Qed.

Lemma str_lt_irrefl s : str_lt s s = false.
Proof. unfold str_lt, String.ltb. by rewrite string_compare_refl. Qed.

Lemma str_lt_trans a b c :
  str_lt a b = true → str_lt b c = true → str_lt a c = true.
Proof.
  unfold str_lt, String.ltb. intros Hab Hbc.
  destruct (String.compare a b) eqn:E1; try done.
  destruct (String.compare b c) eqn:E2; try done.
  by rewrite (string_compare_lt_trans _ _ _ E1 E2).
Qed.

Lemma str_lt_asym a b : str_lt a b = true → str_lt b a = false.
Proof.
  intros Hab. destruct (str_lt b a) eqn:Hba; [|done].
  pose proof (str_lt_trans _ _ _ Hab Hba) as Haa.
  by rewrite str_lt_irrefl in Haa.
Qed.

Lemma str_lt_trichotomy a b :
  str_lt a b = false → a ≠ b → str_lt b a = true.
Proof.
  unfold str_lt, String.ltb. intros Hab Hne.
  rewrite String.compare_antisym.
  destruct (String.compare a b) eqn:E; simpl; try done.
  by apply String.compare_eq_iff in E.
Qed.

Lemma str_lt_negtrans a b c :
  str_lt a b = false → str_lt b c = false → str_lt a c = false.
Proof.
  intros Hab Hbc. destruct (str_lt a c) eqn:Hac; [|done].
  destruct (decide (a = b)) as [->|Hne1]; [congruence|].
  destruct (decide (b = c)) as [->|Hne2]; [congruence|].
  pose proof (str_lt_trichotomy _ _ Hab Hne1) as Hba.
  pose proof (str_lt_trichotomy _ _ Hbc Hne2) as Hcb.
  pose proof (str_lt_trans _ _ _ Hcb Hba) as Hca.
  by rewrite (str_lt_asym _ _ Hac) in Hca.
Qed.

Section sort_facts.
Context {A : Type} (Less : A → A → bool).

Lemma sift_Permutation x rp : sift Less x rp ≡ₚ x :: rp.
Proof.
  induction rp as [|y rp IH]; simpl; [done|].
  destruct (Less x y); [|done]. rewrite IH. apply Permutation_swap.
Qed.

Lemma insertionSort_Permutation data : insertionSort Less data ≡ₚ data.
Proof.
  unfold insertionSort. rewrite reverse_Permutation.
  assert (∀ acc, foldl (λ rp x, sift Less x rp) acc data ≡ₚ data ++ acc)
    as Hgen.
  { induction data as [|x data IH]; intros acc; simpl; [done|].
    rewrite IH, sift_Permutation. by rewrite Permutation_middle. }
  rewrite Hgen. by rewrite app_nil_r.
Qed.

(** From here on [Less] is a strict weak order. *)
Hypothesis Less_asym : ∀ a b, Less a b = true → Less b a = false.
Hypothesis Less_negtrans :
  ∀ a b c, Less a b = false → Less b c = false → Less a c = false.

(** The processed prefix, read backwards, never rises. *)
Definition falling : list A → Prop :=
  StronglySorted (λ a b, Less a b = false).

Lemma sift_falling x rp : falling rp → falling (sift Less x rp).
Proof.
  unfold falling. induction rp as [|y rp IH]; simpl; intros Hs.
  - repeat constructor.
  - apply StronglySorted_cons in Hs as [Hy Hs].
    destruct (Less x y) eqn:Hxy.
    + apply StronglySorted_cons. split; [|by apply IH].
      rewrite sift_Permutation. constructor; [by apply Less_asym|done].
    + apply StronglySorted_cons. split; [|by apply StronglySorted_cons].
      constructor; [done|].
      eapply Forall_impl; [exact Hy|]. intros z Hyz. simpl in Hyz.
      by eapply Less_negtrans.
Qed.

Lemma foldl_sift_falling data acc :
  falling acc → falling (foldl (λ rp x, sift Less x rp) acc data).
Proof.
  revert acc. induction data as [|x data IH]; intros acc Hacc; simpl;
    [done|]. by apply IH, sift_falling.
Qed.

Lemma falling_reverse l :
  falling l → StronglySorted (λ a b, Less b a = false) (reverse l).
Proof.
  unfold falling. induction l as [|x l IH]; intros Hs.
  - constructor.
  - apply StronglySorted_cons in Hs as [Hx Hs]. rewrite reverse_cons.
    apply StronglySorted_app. split_and!.
    + intros a b Ha Hb. apply list_elem_of_singleton in Hb as ->.
      rewrite elem_of_reverse in Ha.
      rewrite Forall_forall in Hx. by apply Hx.
    + by apply IH.
    + repeat constructor.
Qed.

Lemma insertionSort_sorted data :
  StronglySorted (λ a b, Less b a = false) (insertionSort Less data).
Proof.
  unfold insertionSort. apply falling_reverse, foldl_sift_falling.
  constructor.
Qed.
End sort_facts.

Definition ascending : list string → Prop :=
  StronglySorted (λ a b, str_lt a b = true).

Lemma sort_Strings_Permutation l : sort_Strings l ≡ₚ l.
Proof. apply insertionSort_Permutation. Qed.

Lemma nondescending_NoDup_ascending l :
  StronglySorted (λ a b, str_lt b a = false) l → NoDup l → ascending l.
Proof.
  unfold ascending. induction 1 as [|x xs Hxs IH Hx]; intros Hnd;
    [constructor|].
  apply NoDup_cons in Hnd as [Hnotin Hnd].
  constructor; [by apply IH|].
  rewrite Forall_forall in Hx. apply Forall_forall. intros y Hy.
  apply str_lt_trichotomy; [by apply Hx|]. by intros ->.
Qed.

Lemma sort_Strings_ascending l : NoDup l → ascending (sort_Strings l).
Proof.
  intros Hnd. apply nondescending_NoDup_ascending.
  - apply insertionSort_sorted; [apply str_lt_asym|apply str_lt_negtrans].
  - by rewrite sort_Strings_Permutation.
Qed.

Lemma ascending_unique l1 l2 :
  ascending l1 → ascending l2 → l1 ≡ₚ l2 → l1 = l2.
Proof.
  apply StronglySorted_unique_strong.
  intros a b _ _ Hab Hba. by rewrite (str_lt_asym _ _ Hab) in Hba.
Qed.

(** ** [sort.Sort] where the order leaves ties

    [sort.Sort] is not stable: from seven elements on it leaves the
    insertion sort for a quicksort with a heapsort behind it, and which
    of two elements that [Less] does not tell apart comes first is then
    a matter of the routine.  A [sorter] is one admissible [sort.Sort]:
    it returns a rearrangement of the slice, never descending when
    [Less] is a strict weak order, and it is the insertion sort on a
    slice shorter than seven elements. *)
Record sorter : Type := {
  sorted_by : ∀ A : Type, (A → A → bool) → list A → list A;
  sorted_by_perm : ∀ (A : Type) (Less : A → A → bool) (data : list A),
    sorted_by A Less data ≡ₚ data;
  sorted_by_sorted : ∀ (A : Type) (Less : A → A → bool) (data : list A),
    (∀ a b, Less a b = true → Less b a = false) →
    (∀ a b c, Less a b = false → Less b c = false → Less a c = false) →
    StronglySorted (λ a b, Less b a = false) (sorted_by A Less data);
  sorted_by_short : ∀ (A : Type) (Less : A → A → bool) (data : list A),
    length data < 7 → sorted_by A Less data = insertionSort Less data
}.
Arguments sorted_by _ {A} _ _.

(** The insertion sort at every length, which keeps ties in the order
    they come in. *)
Program Definition insertion_sorter : sorter :=
  {| sorted_by A Less data := insertionSort Less data |}.
Next Obligation. intros. apply insertionSort_Permutation. Qed.
Next Obligation. intros. by apply insertionSort_sorted. Qed.
Next Obligation. done. Qed.

(** A routine that, from seven elements on, puts ties in the opposite
    order. *)
Program Definition reversing_sorter : sorter :=
  {| sorted_by A Less data :=
       if bool_decide (length data < 7) then insertionSort Less data
       else insertionSort Less (reverse data) |}.
Next Obligation.
  intros. simpl. case_bool_decide.
  - apply insertionSort_Permutation.
  - by rewrite insertionSort_Permutation, reverse_Permutation.
Qed.
Next Obligation.
  intros. simpl. case_bool_decide; by apply insertionSort_sorted.
Qed.
Next Obligation. intros. simpl. by rewrite bool_decide_eq_true_2. Qed.

(** Where [Less] tells any two different elements of the slice apart,
    there is one arrangement that never descends, and every routine
    returns it. *)
Lemma sorted_by_unique (so so' : sorter) {A} (Less : A → A → bool)
    (data : list A) :
  (∀ a b, Less a b = true → Less b a = false) →
  (∀ a b c, Less a b = false → Less b c = false → Less a c = false) →
  (∀ a b, a ∈ data → b ∈ data →
          Less a b = false → Less b a = false → a = b) →
  sorted_by so Less data = sorted_by so' Less data.
Proof.
  intros Hasym Hneg Htie.
  apply (StronglySorted_unique_strong (λ a b, Less b a = false)).
  - intros a b Ha Hb Hba Hab. rewrite (sorted_by_perm so) in Ha.
    rewrite (sorted_by_perm so') in Hb. by apply Htie.
  - by apply sorted_by_sorted.
  - by apply sorted_by_sorted.
  - by rewrite (sorted_by_perm so), (sorted_by_perm so').
Qed.

Lemma sorted_by_twice (so : sorter) {A} (Less : A → A → bool)
    (data : list A) :
  (∀ a b, Less a b = true → Less b a = false) →
  (∀ a b c, Less a b = false → Less b c = false → Less a c = false) →
  (∀ a b, a ∈ data → b ∈ data →
          Less a b = false → Less b a = false → a = b) →
  sorted_by so Less (sorted_by so Less data) = sorted_by so Less data.
Proof.
  intros Hasym Hneg Htie.
  apply (StronglySorted_unique_strong (λ a b, Less b a = false)).
  - intros a b Ha Hb Hba Hab. rewrite !(sorted_by_perm so) in Ha.
    rewrite (sorted_by_perm so) in Hb. by apply Htie.
  - by apply sorted_by_sorted.
  - by apply sorted_by_sorted.
  - by rewrite (sorted_by_perm so).
Qed.

(** Strings are such an order: every routine sorts them as
    [sort_Strings] does. *)
Lemma sorted_by_strings (so : sorter) (data : list string) :
  sorted_by so str_lt data = sort_Strings data.
Proof.
  apply (sorted_by_unique so insertion_sorter str_lt data).
  - apply str_lt_asym.
  - apply str_lt_negtrans.
  - intros a b _ _ Hab Hba. destruct (decide (a = b)) as [|Hne]; [done|].
    by rewrite (str_lt_trichotomy _ _ Hab Hne) in Hba.
Qed.

(** ** Package [schema]: the Provider (helper/schema/provider.go) *)
Module schema.

(** Modelled from the spec: [terraform.ResourceState], declared in the
    terraform package: an id, a type and the flat attributes.  An empty
    id means not yet created or to be destroyed. *)
Record ResourceState : Type := {
  ID : string;
  Type_ : string;
  Attributes : gmap string string
}.

(** Modelled from the spec: the diff of one attribute and the diff of a
    resource ([terraform.ResourceAttrDiff], [terraform.ResourceDiff]),
    declared in the terraform package: the entries by attribute path and
    the destroy marker. *)
Record ResourceAttrDiff : Type := {
  Old : string;
  New : string;
  NewComputed : bool;
  NewRemoved : bool;
  RequiresNew : bool
}.

Record ResourceDiff : Type := {
  dAttributes : gmap string ResourceAttrDiff;
  Destroy : bool
}.

(** [terraform.ResourceType], as [Resources] builds it. *)
Record ResourceType : Type := { Name : string }.

(** The parts of the package that live outside provider.go.  The types
    are only ever handed on by the Provider: [ResourceConfig] stands for
    the values of [*terraform.ResourceConfig], [ResourceData] for those of
    [*ResourceData], [Any] for those of [interface{}] (the meta
    value), [Schema] for the values of [*Schema].  The
    functions are the methods of [schemaMap] that provider.go calls. *)
Class SchemaMap : Type := {
  Schema : Type;
  ResourceConfig : Type;
  ResourceData : Type;
  Any : Type;
  schemaMap_InternalValidate : gmap string Schema → option error;
  schemaMap_Validate :
    gmap string Schema → ResourceConfig → list string * list error;
  schemaMap_Diff :
    gmap string Schema → ptr ResourceState → ResourceConfig →
    ptr ResourceDiff * option error;
  schemaMap_Data :
    gmap string Schema → ptr ResourceState → ptr ResourceDiff →
    ResourceData * option error;
  (** the methods [Id] and [State] of [ResourceData] *)
  ResourceData_Id : ResourceData → string;
  ResourceData_State : ResourceData → ResourceState
}.

Section provider.
Context `{SM : SchemaMap}.

(** A create, read, update or delete callback works on the
    [*ResourceData] it is handed, in place, and returns an error. *)
Definition CRUDFunc : Type := ResourceData → Any → ResourceData * option error.

(** [ConfigureFunc]: from a [ResourceData] to an [interface{}] and an
    error. *)
Definition ConfigureFunc_t : Type := ResourceData → Any * option error.

(** [schema.Resource], with the fields the providers fill in. *)
Record Resource : Type := {
  rSchema : gmap string Schema;
  Create : CRUDFunc;
  Read : CRUDFunc;
  Update : CRUDFunc;
  Delete : CRUDFunc
}.

Record Provider : Type := {
  pSchema : gmap string Schema;
  ResourcesMap : gmap string Resource;
  ConfigureFunc : option ConfigureFunc_t;   (* [None] is the nil func *)
  meta : Any
}.

Definition with_meta (p : Provider) (v : Any) : Provider :=
  {| pSchema := pSchema p; ResourcesMap := ResourcesMap p;
     ConfigureFunc := ConfigureFunc p; meta := v |}.

(** Callback invocations, in the order they happen. *)
Inductive call : Type :=
  | CallConfigureFunc (d : ResourceData)
  | CallCreate (d : ResourceData) (m : Any)
  | CallRead (d : ResourceData) (m : Any)
  | CallUpdate (d : ResourceData) (m : Any)
  | CallDelete (d : ResourceData) (m : Any).

(** The methods of [*Resource] that provider.go delegates to and that are
    declared in resource.go. *)
Class ResourceMethods : Type := {
  Resource_InternalValidate : Resource → option error;
  Resource_Validate : Resource → ResourceConfig → list string * list error;
  Resource_Diff :
    Resource → ptr ResourceState → ResourceConfig →
    ptr ResourceDiff * option error;
  Resource_Refresh :
    Resource → ptr ResourceState → Any → ptr ResourceState * option error
}.
Context `{RM : ResourceMethods}.

(** *** Resource.Apply *)

(** Modelled from the spec: an empty diff means no change.  A nil diff
    has no entries; a diff carrying the destroy marker is a change. *)
Definition diff_Empty (d : ptr ResourceDiff) : bool :=
  match d with
  | None => true
  | Some d => (size (dAttributes d) =? 0)%nat && negb (Destroy d)
  end.

Definition diff_Destroy (d : ptr ResourceDiff) : bool :=
  match d with
  | None => false
  | Some d => Destroy d
  end.

Definition diff_RequiresNew (d : ptr ResourceDiff) : bool :=
  match d with
  | None => false
  | Some d => existsb RequiresNew (map_to_list (dAttributes d)).*2
  end.

Definition emptyDiff : ResourceDiff := {| dAttributes := ∅; Destroy := false |}.

Definition with_ID (s : ResourceState) (id : string) : ResourceState :=
  {| ID := id; Type_ := Type_ s; Attributes := Attributes s |}.

Definition cleared (s : ResourceState) : ResourceState :=
  {| ID := ""; Type_ := Type_ s; Attributes := ∅ |}.

Definition applied : Type := (ptr ResourceState * option error) * list call.

(** Modelled from the spec: [Read] after a successful [Create] or
    [Update]; an empty id afterwards means the resource is gone. *)
Definition refresh_after (r : Resource) (data : ResourceData) (m : Any)
    (calls : list call) : applied :=
  let '(data', err) := Read r data m in
  let calls := calls ++ [CallRead data m] in
  match err with
  | Some e => ((Some (ResourceData_State data'), Some e), calls)
  | None =>
      if String.eqb (ResourceData_Id data') ""
      then ((None, None), calls)
      else ((Some (ResourceData_State data'), None), calls)
  end.

(** Modelled from the spec: the path through one of [Create] and
    [Update], over a [ResourceData] built from the state and the diff. *)
Definition write_path (cb : CRUDFunc) (mk : ResourceData → Any → call)
    (r : Resource) (s : ResourceState) (d : ptr ResourceDiff) (m : Any)
    (calls : list call) : applied :=
  let '(data, err) := schemaMap_Data (rSchema r) (Some s) d in
  match err with
  | Some e => ((Some s, Some e), calls)
  | None =>
      let '(data', err) := cb data m in
      let calls := calls ++ [mk data m] in
      match err with
      | Some e => ((Some (ResourceData_State data'), Some e), calls)
      | None => refresh_after r data' m calls
      end
  end.

Definition create_path (r : Resource) := write_path (Create r) CallCreate r.
Definition update_path (r : Resource) := write_path (Update r) CallUpdate r.

(** Modelled from the spec: [Delete] over (state, [d]), then [k] on
    success. *)
Definition delete_then (r : Resource) (s : ResourceState)
    (d : ptr ResourceDiff) (m : Any) (k : list call → applied) : applied :=
  let '(data, err) := schemaMap_Data (rSchema r) (Some s) d in
  match err with
  | Some e => ((Some s, Some e), [])
  | None =>
      let '(data', err) := Delete r data m in
      match err with
      | Some e =>
          ((Some (ResourceData_State data'), Some e), [CallDelete data m])
      | None => k [CallDelete data m]
      end
  end.

(** Modelled from the spec: [Resource.Apply], whose file resource.go is not
    among the sources.  The steps are those of the orchestration section:
    create when the state has no id and the diff is not empty; no-op on an
    empty diff; destroy then create when an entry requires a new resource;
    update otherwise; after a successful create or update a read, and an
    error returns the state reached so far.  The destroy path is listed
    there after the closing "else" of the other four steps; it is tested
    first here, and a diff carrying the destroy marker does not count as
    empty.  A nil diff has no entries and counts as empty.  Where the
    spec is silent, an error from building the [ResourceData] returns the
    state as it was, and the state "set to empty" keeps its type. *)
Definition Resource_Apply (r : Resource) (s : ResourceState)
    (d : ptr ResourceDiff) (m : Any) : applied :=
  if diff_Destroy d then
    delete_then r s d m (λ calls, ((Some (with_ID s ""), None), calls))
  else if String.eqb (ID s) "" && negb (diff_Empty d) then
    create_path r s d m []
  else if diff_Empty d then
    ((Some s, None), [])
  else if diff_RequiresNew d then
    delete_then r s (Some emptyDiff) m (create_path r (cleared s) d m)
  else
    update_path r s d m [].

(** *** The methods of [*Provider] *)

(** The loop of [InternalValidate] over [ResourcesMap] stops at the first
    resource that does not validate. *)
Fixpoint first_invalid (entries : list (string * Resource)) : option error :=
  match entries with
  | [] => None
  | (k, r) :: rest =>
      match Resource_InternalValidate r with
      | Some err => Some (k +:+ ": " +:+ err)
      | None => first_invalid rest
      end
  end.

Definition InternalValidate (rg : ranger) (p : ptr Provider)
    : outcome (option error) :=
  match p with
  | None => Returns (Some "provider is nil")
  | Some p =>
      match schemaMap_InternalValidate (pSchema p) with
      | Some err => Returns (Some err)
      | None => Returns (first_invalid (visit rg (ResourcesMap p)))
      end
  end.

Definition Meta (p : ptr Provider) : outcome Any :=
  p ←! deref p; Returns (meta p).

(** [SetMeta] and [Configure] assign to a field of the receiver; they
    return the receiver's new contents next to their Go results. *)
Definition SetMeta (p : ptr Provider) (v : Any) : outcome Provider :=
  p ←! deref p; Returns (with_meta p v).

Definition Validate (p : ptr Provider) (c : ResourceConfig)
    : outcome (list string * list error) :=
  p ←! deref p; Returns (schemaMap_Validate (pSchema p) c).

Definition ValidateResource (p : ptr Provider) (t : string)
    (c : ResourceConfig) : outcome (list string * list error) :=
  p ←! deref p;
  match ResourcesMap p !! t with
  | None => Returns ([], ["Provider doesn't support resource: " +:+ t])
  | Some r => Returns (Resource_Validate r c)
  end.

Definition Configure (p : ptr Provider) (c : ResourceConfig)
    : outcome (Provider * option error * list call) :=
  p ←! deref p;
  match ConfigureFunc p with
  | None => Returns (p, None, [])
  | Some configure =>
      let sm := pSchema p in
      let '(diff, err) := schemaMap_Diff sm None c in
      match err with
      | Some e => Returns (p, Some e, [])
      | None =>
          let '(data, err) := schemaMap_Data sm None diff in
          match err with
          | Some e => Returns (p, Some e, [])
          | None =>
              let '(meta', err) := configure data in
              match err with
              | Some e => Returns (p, Some e, [CallConfigureFunc data])
              | None =>
                  Returns (with_meta p meta', None, [CallConfigureFunc data])
              end
          end
      end
  end.

Definition Apply (p : ptr Provider) (s : ptr ResourceState)
    (d : ptr ResourceDiff) : outcome applied :=
  p ←! deref p;
  s ←! deref s;
  match ResourcesMap p !! Type_ s with
  | None => Returns ((None, Some ("unknown resource type: " +:+ Type_ s)), [])
  | Some r => Returns (Resource_Apply r s d (meta p))
  end.

Definition Diff (p : ptr Provider) (s : ptr ResourceState)
    (c : ResourceConfig) : outcome (ptr ResourceDiff * option error) :=
  p ←! deref p;
  s ←! deref s;
  match ResourcesMap p !! Type_ s with
  | None => Returns (None, Some ("unknown resource type: " +:+ Type_ s))
  | Some r => Returns (Resource_Diff r (Some s) c)
  end.

Definition Refresh (p : ptr Provider) (s : ptr ResourceState)
    : outcome (ptr ResourceState * option error) :=
  p ←! deref p;
  s ←! deref s;
  match ResourcesMap p !! Type_ s with
  | None => Returns (None, Some ("unknown resource type: " +:+ Type_ s))
  | Some r => Returns (Resource_Refresh r (Some s) (meta p))
  end.

Definition Resources (rg : ranger) (p : ptr Provider)
    : outcome (list ResourceType) :=
  p ←! deref p;
  let keys :=
    foldl (λ keys kr, keys ++ [kr.1]) [] (visit rg (ResourcesMap p)) in
  let keys := sort_Strings keys in
  Returns (foldl (λ result k, result ++ [{| Name := k |}]) [] keys).

(** *** The Provider as a state machine

    One operation of the engine-side interface per constructor; [step]
    runs it on the provider and yields the provider afterwards. *)
Inductive op : Type :=
  | OpInternalValidate
  | OpMeta
  | OpSetMeta (v : Any)
  | OpValidate (c : ResourceConfig)
  | OpValidateResource (t : string) (c : ResourceConfig)
  | OpConfigure (c : ResourceConfig)
  | OpApply (s : ptr ResourceState) (d : ptr ResourceDiff)
  | OpDiff (s : ptr ResourceState) (c : ResourceConfig)
  | OpRefresh (s : ptr ResourceState)
  | OpResources.

Inductive reply : Type :=
  | RInternalValidate (e : option error)
  | RMeta (v : Any)
  | RSetMeta
  | RValidate (r : list string * list error)
  | RConfigure (e : option error) (calls : list call)
  | RApply (a : applied)
  | RDiff (r : ptr ResourceDiff * option error)
  | RRefresh (r : ptr ResourceState * option error)
  | RResources (l : list ResourceType).

Definition outcome_map {A B} (f : A → B) (m : outcome A) : outcome B :=
  x ←! m; Returns (f x).

Definition step (rg : ranger) (p : Provider) (o : op)
    : Provider * outcome reply :=
  match o with
  | OpInternalValidate =>
      (p, outcome_map RInternalValidate (InternalValidate rg (Some p)))
  | OpMeta => (p, outcome_map RMeta (Meta (Some p)))
  | OpSetMeta v =>
      match SetMeta (Some p) v with
      | Returns p' => (p', Returns RSetMeta)
      | Panics why => (p, Panics why)
      end
  | OpValidate c => (p, outcome_map RValidate (Validate (Some p) c))
  | OpValidateResource t c =>
      (p, outcome_map RValidate (ValidateResource (Some p) t c))
  | OpConfigure c =>
      match Configure (Some p) c with
      | Returns (p', e, calls) => (p', Returns (RConfigure e calls))
      | Panics why => (p, Panics why)
      end
  | OpApply s d => (p, outcome_map RApply (Apply (Some p) s d))
  | OpDiff s c => (p, outcome_map RDiff (Diff (Some p) s c))
  | OpRefresh s => (p, outcome_map RRefresh (Refresh (Some p) s))
  | OpResources => (p, outcome_map RResources (Resources rg (Some p)))
  end.

Fixpoint run (rg : ranger) (p : Provider) (ops : list op)
    : Provider * list (outcome reply) :=
  match ops with
  | [] => (p, [])
  | o :: rest =>
      let '(p', r) := step rg p o in
      let '(p'', rs) := run rg p' rest in
      (p'', r :: rs)
  end.

(** The operations whose body assigns to [p.meta]. *)
Definition writes_meta (o : op) : bool :=
  match o with
  | OpSetMeta _ | OpConfigure _ => true
  | _ => false
  end.

(** How [Configure] can end without a successful [ConfigureFunc] call. *)
Inductive configure_stops (p : Provider) (c : ResourceConfig)
    : option error → Prop :=
  | stops_no_func :
      ConfigureFunc p = None → configure_stops p c None
  | stops_diff f diff e :
      ConfigureFunc p = Some f →
      schemaMap_Diff (pSchema p) None c = (diff, Some e) →
      configure_stops p c (Some e)
  | stops_data f diff data e :
      ConfigureFunc p = Some f →
      schemaMap_Diff (pSchema p) None c = (diff, None) →
      schemaMap_Data (pSchema p) None diff = (data, Some e) →
      configure_stops p c (Some e)
  | stops_func f diff data m e :
      ConfigureFunc p = Some f →
      schemaMap_Diff (pSchema p) None c = (diff, None) →
      schemaMap_Data (pSchema p) None diff = (data, None) →
      f data = (m, Some e) →
      configure_stops p c (Some e).

End provider.

(** *** A small instance to run the Provider on

    Configurations are flat maps, a [ResourceData] is the state its diff
    has been laid over, and the meta value is a string. *)
Definition toy_attr (v : string) : ResourceAttrDiff :=
  {| Old := ""; New := v; NewComputed := false; NewRemoved := false;
     RequiresNew := false |}.

Definition toy_Diff (s : ptr ResourceState) (c : gmap string string)
    : ptr ResourceDiff * option error :=
  (Some {| dAttributes := toy_attr <$> c; Destroy := false |}, None).

Definition toy_Data (s : ptr ResourceState) (d : ptr ResourceDiff)
    : ResourceState * option error :=
  let s := default {| ID := ""; Type_ := ""; Attributes := ∅ |} s in
  let news := from_option (λ d, New <$> dAttributes d) ∅ d in
  ({| ID := ID s; Type_ := Type_ s; Attributes := news ∪ Attributes s |}, None).

Definition toy_SchemaMap : SchemaMap :=
  {| Schema := unit;
     ResourceConfig := gmap string string;
     ResourceData := ResourceState;
     Any := string;
     schemaMap_InternalValidate := λ _, None;
     schemaMap_Validate := λ _ _, ([], []);
     schemaMap_Diff := λ _, toy_Diff;
     schemaMap_Data := λ _, toy_Data;
     ResourceData_Id := ID;
     ResourceData_State := λ s, s |}.

Definition toy_ResourceMethods : @ResourceMethods toy_SchemaMap :=
  @Build_ResourceMethods toy_SchemaMap
    (λ _, None)
    (λ _ _, ([], []))
    (λ _, toy_Diff)
    (λ _ s _, (s, None)).

Definition toy_crud : @CRUDFunc toy_SchemaMap := λ d _, (d, None).

Definition toy_resource : @Resource toy_SchemaMap :=
  @Build_Resource toy_SchemaMap {[ "name" := tt ]}
    toy_crud toy_crud toy_crud toy_crud.

(** Hands the configured token on as meta, and fails without one. *)
Definition toy_configure : @ConfigureFunc_t toy_SchemaMap :=
  λ data,
    match Attributes data !! "token" with
    | Some t => (t, None)
    | None => ("", Some "token is required")
    end.

Definition toy_provider : @Provider toy_SchemaMap :=
  @Build_Provider toy_SchemaMap
    {[ "token" := tt ]}
    {[ "toy_app" := toy_resource; "toy_addon" := toy_resource ]}
    (Some toy_configure)
    "".

(** A provider without resources and without a [ConfigureFunc]. *)
Definition bare_provider : @Provider toy_SchemaMap :=
  @Build_Provider toy_SchemaMap ∅ ∅ None "".

Definition toy_state (t : string) : ResourceState :=
  {| ID := "app-1"; Type_ := t; Attributes := {[ "name" := "app" ]} |}.

(** *** Properties of the Provider *)
Section provider_facts.
Context `{SM : SchemaMap} `{RM : !ResourceMethods}.
Implicit Types (p : Provider) (c : ResourceConfig) (s : ResourceState).

Lemma foldl_snoc_map {A B} (f : A → B) (l : list A) (acc : list B) :
  foldl (λ acc x, acc ++ [f x]) acc l = acc ++ map f l.
Proof.
  revert acc. induction l as [|x l IH]; intros acc; simpl.
  - by rewrite app_nil_r.
  - by rewrite IH, <- app_assoc.
Qed.

(** The type names [Resources] hands to [sort.Strings]. *)
Definition visited_names (rg : ranger) p : list string :=
  (visit rg (ResourcesMap p)).*1.

Lemma Resources_unfold rg p :
  Resources rg (Some p) =
  Returns (map (λ k, {| Name := k |}) (sort_Strings (visited_names rg p))).
Proof.
  unfold Resources, visited_names. simpl. by rewrite !foldl_snoc_map.
Qed.

Lemma visited_names_Permutation rg rg' p :
  visited_names rg p ≡ₚ visited_names rg' p.
Proof.
  unfold visited_names. by rewrite (visit_perm rg), (visit_perm rg').
Qed.

Lemma sorted_names_agree rg rg' p :
  sort_Strings (visited_names rg p) = sort_Strings (visited_names rg' p).
Proof.
  apply ascending_unique.
  - apply sort_Strings_ascending, visit_NoDup_fst.
  - apply sort_Strings_ascending, visit_NoDup_fst.
  - rewrite !sort_Strings_Permutation. apply visited_names_Permutation.
Qed.

Lemma run_readonly rg p ops :
  forallb (λ o, negb (writes_meta o)) ops = true →
  run rg p ops = (p, map (λ o, (step rg p o).2) ops).
Proof.
  induction ops as [|o ops IH]; simpl; [done|].
  intros [Ho Hops]%andb_prop. specialize (IH Hops).
  destruct o; simpl in *; try done; by rewrite IH.
Qed.

(** C1 (as amended): when the schema map's [Diff] over a nil state and
    its [Data] over (nil state, that diff) return no error and
    [ConfigureFunc], called on that [ResourceData], returns no error,
    [Configure] makes exactly that one callback invocation, stores the
    value the callback returned as the provider's meta and returns nil; [Meta]
    then returns exactly that value. *)
Theorem Configure_stores_meta p c f diff data m :
  ConfigureFunc p = Some f →
  schemaMap_Diff (pSchema p) None c = (diff, None) →
  schemaMap_Data (pSchema p) None diff = (data, None) →
  f data = (m, None) →
  Configure (Some p) c
    = Returns (with_meta p m, None, [CallConfigureFunc data])
  ∧ Meta (Some (with_meta p m)) = Returns m.
Proof.
  intros Hf Hdiff Hdata Hm. split; [|done].
  unfold Configure. simpl. by rewrite Hf, Hdiff, Hdata, Hm.
Qed.

(** C8: when [Configure] does not run [ConfigureFunc] to successful
    completion (the func is nil, or [Diff], [Data] or the func itself
    returns an error), it returns nil in the first case and that error in
    the others, and leaves the provider, hence the value [Meta] returns,
    as it was. *)
Theorem Configure_atomic p c err :
  configure_stops p c err →
  ∃ calls,
    Configure (Some p) c = Returns (p, err, calls)
    ∧ (ConfigureFunc p = None → err = None ∧ calls = [])
    ∧ ∀ p', Configure (Some p) c = Returns (p', err, calls) →
            Meta (Some p') = Meta (Some p).
Proof.
  intros Hstop.
  assert (∃ calls, Configure (Some p) c = Returns (p, err, calls)
                   ∧ (ConfigureFunc p = None → err = None ∧ calls = []))
    as (calls & Hrun & Hnil).
  { unfold Configure. simpl.
    destruct Hstop as [Hf|f diff e Hf Hdiff|f diff data e Hf Hdiff Hdata
                      |f diff data m e Hf Hdiff Hdata Hm].
    - rewrite Hf. by exists [].
    - rewrite Hf, Hdiff. exists []. split; [done|congruence].
    - rewrite Hf, Hdiff, Hdata. exists []. split; [done|congruence].
    - rewrite Hf, Hdiff, Hdata, Hm. eexists. split; [done|congruence]. }
  exists calls. split_and!; [done|done|].
  intros p' Hrun'. rewrite Hrun in Hrun'. by simplify_eq.
Qed.

(** C2 (as amended): [ValidateResource], [Apply], [Diff] and [Refresh]
    dispatch on the resource type name: for a name that is not a key of
    [ResourcesMap] each returns no result and an error naming the type
    ("Provider doesn't support resource: t" from [ValidateResource],
    "unknown resource type: t" from the other three), and for a name that
    is a key each returns what the resource's own method returns.
    [Validate] takes no type name and does not dispatch: it validates the
    provider's own configuration against the provider schema. *)
Theorem dispatch_on_type_name p (t id : string) (attrs : gmap string string)
    c (d : ptr ResourceDiff) :
  let s := {| ID := id; Type_ := t; Attributes := attrs |} in
  match ResourcesMap p !! t with
  | None =>
      ValidateResource (Some p) t c
        = Returns ([], ["Provider doesn't support resource: " +:+ t])
      ∧ Apply (Some p) (Some s) d
        = Returns ((None, Some ("unknown resource type: " +:+ t)), [])
      ∧ Diff (Some p) (Some s) c
        = Returns (None, Some ("unknown resource type: " +:+ t))
      ∧ Refresh (Some p) (Some s)
        = Returns (None, Some ("unknown resource type: " +:+ t))
  | Some r =>
      ValidateResource (Some p) t c = Returns (Resource_Validate r c)
      ∧ Apply (Some p) (Some s) d = Returns (Resource_Apply r s d (meta p))
      ∧ Diff (Some p) (Some s) c = Returns (Resource_Diff r (Some s) c)
      ∧ Refresh (Some p) (Some s)
        = Returns (Resource_Refresh r (Some s) (meta p))
  end
  ∧ Validate (Some p) c = Returns (schemaMap_Validate (pSchema p) c).
Proof.
  intros s. unfold ValidateResource, Apply, Diff, Refresh, Validate. simpl.
  destruct (ResourcesMap p !! t) as [r|]; done.
Qed.

(** C3: [Resources] returns the keys of [ResourcesMap], each exactly once,
    in ascending string order, whatever order the map is iterated in. *)
Theorem Resources_sorted_keys rg p :
  ∃ names : list string,
    Resources rg (Some p) = Returns (map (λ k, {| Name := k |}) names)
    ∧ ascending names
    ∧ NoDup names
    ∧ (∀ t, t ∈ names ↔ is_Some (ResourcesMap p !! t))
    ∧ ∀ rg', Resources rg' (Some p) = Resources rg (Some p).
Proof.
  exists (sort_Strings (visited_names rg p)). split_and!.
  - apply Resources_unfold.
  - apply sort_Strings_ascending, visit_NoDup_fst.
  - rewrite sort_Strings_Permutation. apply visit_NoDup_fst.
  - intros t. rewrite sort_Strings_Permutation. unfold visited_names.
    rewrite list_elem_of_fmap. split.
    + intros ([k r] & -> & Hin). apply visit_elem_of in Hin. by exists r.
    + intros [r Hr]. exists (t, r). split; [done|]. by apply visit_elem_of.
  - intros rg'. rewrite !Resources_unfold.
    by rewrite (sorted_names_agree rg' rg).
Qed.

(** C4 (as amended): [p.meta] is assigned by [Configure] (on every call
    that runs [ConfigureFunc] successfully, so more than once when
    [Configure] is called again) and by [SetMeta], and by nothing else:
    over any sequence of the other operations ([InternalValidate], [Meta],
    [Validate], [ValidateResource], [Apply], [Diff], [Refresh],
    [Resources]) the provider stays as it was, every operation of the
    sequence behaves as it does on the initial provider, so [Apply] and
    [Refresh] hand the initial meta to the resource, and [Meta] returns
    the same value at the end. *)
Theorem meta_readonly_outside_Configure rg p (ops : list op) :
  forallb (λ o, negb (writes_meta o)) ops = true →
  run rg p ops = (p, map (λ o, (step rg p o).2) ops)
  ∧ Meta (Some (run rg p ops).1) = Meta (Some p)
  ∧ ∀ o, o ∈ ops →
      match o with
      | OpApply (Some s) d =>
          ∀ r, ResourcesMap p !! Type_ s = Some r →
               (step rg p o).2
               = Returns (RApply (Resource_Apply r s d (meta p)))
      | OpRefresh (Some s) =>
          ∀ r, ResourcesMap p !! Type_ s = Some r →
               (step rg p o).2
               = Returns (RRefresh (Resource_Refresh r (Some s) (meta p)))
      | _ => True
      end.
Proof.
  intros Hops. rewrite (run_readonly _ _ _ Hops). split_and!; [done|done|].
  intros o _. destruct o as [| | | | | |[s|] d| |[s|]|]; try done.
  - intros r Hr. simpl. unfold Apply. simpl. by rewrite Hr.
  - intros r Hr. simpl. unfold Refresh. simpl. by rewrite Hr.
Qed.

(** C5 (as amended): only [InternalValidate] guards against a nil
    receiver, returning the error "provider is nil".  [Validate],
    [ValidateResource], [Configure], [Apply], [Diff] and [Refresh] select
    a field of the receiver, and [Apply], [Diff] and [Refresh] the [Type]
    of the state, without a nil check: on a nil receiver, or a nil state,
    they panic with a nil dereference.  On a provider and a state that
    are not nil every one of the seven operations returns (a result or an
    error value), as long as the functions it hands over to return. *)
Theorem nil_guard_only_in_InternalValidate rg p c (t : string) s
    (d : ptr ResourceDiff) :
  InternalValidate rg None = Returns (Some "provider is nil")
  ∧ (Validate None c = Panics NilDereference
     ∧ ValidateResource None t c = Panics NilDereference
     ∧ Configure None c = Panics NilDereference
     ∧ Apply None (Some s) d = Panics NilDereference
     ∧ Diff None (Some s) c = Panics NilDereference
     ∧ Refresh None (Some s) = Panics NilDereference)
  ∧ (Apply (Some p) None d = Panics NilDereference
     ∧ Diff (Some p) None c = Panics NilDereference
     ∧ Refresh (Some p) None = Panics NilDereference)
  ∧ (returns (InternalValidate rg (Some p))
     ∧ returns (Validate (Some p) c)
     ∧ returns (ValidateResource (Some p) t c)
     ∧ returns (Configure (Some p) c)
     ∧ returns (Apply (Some p) (Some s) d)
     ∧ returns (Diff (Some p) (Some s) c)
     ∧ returns (Refresh (Some p) (Some s))).
Proof.
  split_and!; try done; unfold returns.
  - simpl. destruct (schemaMap_InternalValidate (pSchema p)); eauto.
  - simpl. eauto.
  - unfold ValidateResource. simpl. destruct (ResourcesMap p !! t); eauto.
  - unfold Configure. simpl.
    destruct (ConfigureFunc p) as [f|]; [|eauto].
    destruct (schemaMap_Diff (pSchema p) None c) as [diff [e|]]; [eauto|].
    destruct (schemaMap_Data (pSchema p) None diff) as [data [e|]]; [eauto|].
    destruct (f data) as [m [e|]]; eauto.
  - unfold Apply. simpl. destruct (ResourcesMap p !! Type_ s); eauto.
  - unfold Diff. simpl. destruct (ResourcesMap p !! Type_ s); eauto.
  - unfold Refresh. simpl. destruct (ResourcesMap p !! Type_ s); eauto.
Qed.

Lemma diff_Empty_not_Destroy (d : ptr ResourceDiff) :
  diff_Empty d = true → diff_Destroy d = false.
Proof.
  destruct d as [d|]; simpl; [|done].
  intros [_ Hd]%andb_prop. by destruct (Destroy d).
Qed.

Lemma Resource_Apply_empty_diff (r : Resource) s (d : ptr ResourceDiff)
    (m : Any) :
  diff_Empty d = true → Resource_Apply r s d m = ((Some s, None), []).
Proof.
  intros Hd. unfold Resource_Apply.
  rewrite (diff_Empty_not_Destroy _ Hd), Hd. simpl.
  by rewrite andb_false_r.
Qed.

(** C7 (as amended): for a state whose type is a key of [ResourcesMap],
    [Apply] with an empty diff returns that very state, with no error,
    and invokes none of [Create], [Read], [Update], [Delete].  For a
    state of any other type [Apply] with an empty diff invokes no
    callback either, but returns no state and the error "unknown resource
    type". *)
Theorem Apply_empty_diff_noop p s (d : ptr ResourceDiff) :
  diff_Empty d = true →
  match ResourcesMap p !! Type_ s with
  | Some _ => Apply (Some p) (Some s) d = Returns ((Some s, None), [])
  | None =>
      Apply (Some p) (Some s) d
      = Returns ((None, Some ("unknown resource type: " +:+ Type_ s)), [])
  end.
Proof.
  intros Hd. unfold Apply. simpl.
  destruct (ResourcesMap p !! Type_ s) as [r|]; [|done].
  by rewrite Resource_Apply_empty_diff.
Qed.

End provider_facts.

(** *** The properties on the small instance *)

#[local] Existing Instance toy_SchemaMap.
#[local] Existing Instance toy_ResourceMethods.

Definition token_config : gmap string string := {[ "token" := "s3cr3t" ]}.

Example Resources_of_toy_provider :
  Resources ascending_ranger (Some toy_provider)
    = Returns [{| Name := "toy_addon" |}; {| Name := "toy_app" |}]
  ∧ Resources descending_ranger (Some toy_provider)
    = Resources ascending_ranger (Some toy_provider).
Proof. split; reflexivity. Qed.

Example ValidateResource_unknown_type :
  ValidateResource (Some toy_provider)
    "toy_database" token_config
  = Returns ([], ["Provider doesn't support resource: toy_database"]).
Proof. reflexivity. Qed.

Lemma Configure_stores_meta_witness :
  Configure (Some toy_provider) token_config
    = Returns (with_meta toy_provider "s3cr3t", None,
               [CallConfigureFunc
                  (toy_Data None (toy_Diff None token_config).1).1])
  ∧ Meta (Some (with_meta toy_provider "s3cr3t")) = Returns "s3cr3t".
Proof.
  apply (Configure_stores_meta toy_provider
           token_config toy_configure (toy_Diff None token_config).1
           (toy_Data None (toy_Diff None token_config).1).1 "s3cr3t");
    reflexivity.
Defined.

(** C1 fails as stated: the toy [ConfigureFunc] rejects the empty
    configuration, and [Configure] then returns that error and stores
    nothing. *)
Lemma Configure_not_always_nil :
  ConfigureFunc toy_provider = Some toy_configure
  ∧ ¬ ∃ p' calls,
      Configure (Some toy_provider) (∅ : gmap string string)
      = Returns (p', None, calls).
Proof.
  split; [done|]. intros (p' & calls & Hrun).
  assert (Configure (Some toy_provider)
            (∅ : gmap string string)
          = Returns (toy_provider, Some "token is required",
                     [CallConfigureFunc
                        (toy_Data None (toy_Diff None ∅).1).1]))
    as Hfail by reflexivity.
  rewrite Hfail in Hrun. inversion Hrun.
Qed.

Lemma Configure_atomic_witness :
  configure_stops toy_provider (∅ : gmap string string)
    (Some "token is required")
  ∧ ∃ calls,
      Configure (Some toy_provider) (∅ : gmap string string)
      = Returns (toy_provider, Some "token is required", calls)
      ∧ (ConfigureFunc toy_provider = None →
         Some "token is required" = None ∧ calls = [])
      ∧ ∀ p',
          Configure (Some toy_provider) (∅ : gmap string string)
          = Returns (p', Some "token is required", calls) →
          Meta (Some p') = Meta (Some toy_provider).
Proof.
  assert (configure_stops toy_provider
            (∅ : gmap string string) (Some "token is required")) as Hstop.
  { eapply (stops_func); reflexivity. }
  split; [exact Hstop|].
  exact (Configure_atomic toy_provider ∅ _ Hstop).
Defined.

(** C2 fails as stated for [Validate]: on a provider with an empty
    schema and without any resource, where [ValidateResource] rejects
    every type name, it accepts the empty configuration without an
    error. *)
Lemma Validate_does_not_dispatch :
  pSchema bare_provider = ∅
  ∧ ResourcesMap bare_provider = ∅
  ∧ Validate (Some bare_provider) (∅ : gmap string string) = Returns ([], [])
  ∧ ValidateResource (Some bare_provider) "toy_app" (∅ : gmap string string)
    = Returns ([], ["Provider doesn't support resource: toy_app"]).
Proof. done. Qed.

(** C4 fails as stated: a second [Configure], after a resource
    operation, replaces the meta the first one stored, and so does
    [SetMeta]. *)
Lemma meta_written_twice :
  let token (t : string) : gmap string string := {[ "token" := t ]} in
  let first := [OpConfigure (token "one")] in
  let later := [OpApply (Some (toy_state "toy_app")) (Some emptyDiff);
                OpConfigure (token "two")] in
  meta (run ascending_ranger toy_provider first).1 = "one"
  ∧ meta (run ascending_ranger toy_provider (first ++ later)).1 = "two"
  ∧ meta (run ascending_ranger toy_provider
            (first ++ [OpSetMeta "three"])).1 = "three".
Proof. vm_compute. done. Qed.

Lemma meta_readonly_witness :
  let ops := [OpValidate token_config;
              OpApply (Some (toy_state "toy_app")) (Some emptyDiff);
              OpRefresh (Some (toy_state "toy_app")); OpMeta; OpResources] in
  forallb (λ o, negb (writes_meta o)) ops = true
  ∧ Meta (Some (run ascending_ranger toy_provider ops).1)
    = Meta (Some toy_provider).
Proof.
  intros ops. split; [reflexivity|].
  apply (meta_readonly_outside_Configure
           ascending_ranger toy_provider ops).
  reflexivity.
Defined.

(** C5 fails as stated: [Apply] with a nil state, and [Validate] on a
    nil provider, panic. *)
Lemma nil_arguments_panic :
  ¬ returns (Apply (Some toy_provider) None None)
  ∧ ¬ returns (Validate None token_config).
Proof. split; intros [a Ha]; discriminate Ha. Qed.

Lemma Apply_empty_diff_witness :
  diff_Empty (Some emptyDiff) = true
  ∧ Apply (Some toy_provider)
      (Some (toy_state "toy_app")) (Some emptyDiff)
    = Returns ((Some (toy_state "toy_app"), None), []).
Proof.
  split; [reflexivity|].
  exact (Apply_empty_diff_noop toy_provider
           (toy_state "toy_app") (Some emptyDiff) eq_refl).
Defined.

(** C7 fails as stated: for a state whose type the provider does not
    know, [Apply] with the empty diff does not return the state. *)
Lemma Apply_empty_diff_unknown_type :
  diff_Empty (Some emptyDiff) = true
  ∧ ¬ ∃ calls,
      Apply (Some bare_provider)
        (Some (toy_state "toy_app")) (Some emptyDiff)
      = Returns ((Some (toy_state "toy_app"), None), calls).
Proof.
  split; [done|]. intros [calls Hrun].
  assert (Apply (Some bare_provider)
            (Some (toy_state "toy_app")) (Some emptyDiff)
          = Returns ((None, Some "unknown resource type: toy_app"), []))
    as Hunknown by reflexivity.
  rewrite Hunknown in Hrun. inversion Hrun.
Qed.

(** *** Further properties of the Provider *)
Section provider_more_facts.
Context `{SM : SchemaMap} `{RM : !ResourceMethods}.
Implicit Types (p : Provider) (c : ResourceConfig).

Lemma first_invalid_None (entries : list (string * Resource)) :
  first_invalid entries = None
  ↔ ∀ k r, (k, r) ∈ entries → Resource_InternalValidate r = None.
Proof.
  induction entries as [|[k r] entries IH]; simpl.
  - split; [|done]. by intros _ k r ?%elem_of_nil.
  - destruct (Resource_InternalValidate r) as [err|] eqn:Hr.
    + split; [done|]. intros Hall. exfalso.
      assert (Resource_InternalValidate r = None) as Hnone
        by (apply (Hall k r); by left).
      congruence.
    + rewrite IH. split.
      * intros Hall k' r' [[= -> ->]|Hin]%elem_of_cons; eauto.
      * intros Hall k' r' Hin. apply (Hall k' r'). by right.
Qed.

Lemma first_invalid_Some (entries : list (string * Resource)) e :
  first_invalid entries = Some e →
  ∃ k r err, (k, r) ∈ entries ∧ Resource_InternalValidate r = Some err
             ∧ e = k +:+ ": " +:+ err.
Proof.
  induction entries as [|[k r] entries IH]; simpl; [done|].
  destruct (Resource_InternalValidate r) as [err|] eqn:Hr.
  - intros [= <-]. exists k, r, err. split_and!; [by left|done..].
  - intros (k' & r' & err & Hin & Herr & ->)%IH.
    exists k', r', err. split_and!; [by right|done..].
Qed.

(** X18: whatever the order the resources are visited in,
    [InternalValidate] returns nil exactly when the provider schema and
    every resource of [ResourcesMap] validate; an error it returns is the
    schema's, or that of a resource that does not validate, prefixed with
    the key of that resource. *)
Theorem InternalValidate_verdict rg p :
  (InternalValidate rg (Some p) = Returns None
   ↔ schemaMap_InternalValidate (pSchema p) = None
     ∧ ∀ k r, ResourcesMap p !! k = Some r →
              Resource_InternalValidate r = None)
  ∧ ∀ e, InternalValidate rg (Some p) = Returns (Some e) →
         schemaMap_InternalValidate (pSchema p) = Some e
         ∨ ∃ k r err, ResourcesMap p !! k = Some r
                      ∧ Resource_InternalValidate r = Some err
                      ∧ e = k +:+ ": " +:+ err.
Proof.
  unfold InternalValidate.
  destruct (schemaMap_InternalValidate (pSchema p)) as [err|].
  - split; [split; [done|by intros [? _]]|]. intros e [= <-]. by left.
  - split.
    + split.
      * intros [= Hnone]. split; [done|]. intros k r Hr.
        rewrite first_invalid_None in Hnone. apply (Hnone k r).
        by apply visit_elem_of.
      * intros [_ Hall]. f_equal. apply first_invalid_None.
        intros k r Hin%visit_elem_of. eauto.
    + intros e [= (k & r & err & Hin%visit_elem_of & Herr & ->)%first_invalid_Some].
      right. eauto 10.
Qed.

(** X19: a meta set with [SetMeta] is overridden by a [Configure] that
    runs [ConfigureFunc] without error: [Meta] then returns the value of
    [ConfigureFunc], not the one that was set. *)
Theorem SetMeta_overridden_by_Configure rg p c (v : Any) f diff data m :
  ConfigureFunc p = Some f →
  schemaMap_Diff (pSchema p) None c = (diff, None) →
  schemaMap_Data (pSchema p) None diff = (data, None) →
  f data = (m, None) →
  (run rg p [OpSetMeta v; OpConfigure c; OpMeta]).2
  = [Returns RSetMeta;
     Returns (RConfigure None [CallConfigureFunc data]);
     Returns (RMeta m)].
Proof.
  intros Hf Hdiff Hdata Hm.
  cbn [run step SetMeta deref obind with_meta]. unfold Configure.
  cbn [deref obind].
  change (ConfigureFunc (with_meta p v)) with (ConfigureFunc p).
  change (pSchema (with_meta p v)) with (pSchema p).
  by rewrite Hf, Hdiff, Hdata, Hm.
Qed.

End provider_more_facts.

Lemma SetMeta_overridden_by_Configure_witness :
  (run ascending_ranger toy_provider
     [OpSetMeta "preset"; OpConfigure token_config; OpMeta]).2
  = [Returns RSetMeta;
     Returns (RConfigure None
                [CallConfigureFunc
                   (toy_Data None (toy_Diff None token_config).1).1]);
     Returns (RMeta "s3cr3t")].
Proof.
  apply (SetMeta_overridden_by_Configure (RM := toy_ResourceMethods)
           ascending_ranger toy_provider token_config "preset" toy_configure
           (toy_Diff None token_config).1
           (toy_Data None (toy_Diff None token_config).1).1 "s3cr3t");
    reflexivity.
Defined.

End schema.

(** ** Package [aws]: builtin/providers/aws/structure.go *)
Module aws.
Local Open Scope Z_scope.

(** *** What the package uses from outside the repository *)

(** The type assertions [v.(string)] and [v.(map[string]interface{})]. *)
Definition assert_string (v : value) : outcome string :=
  match v with
  | VString s => Returns s
  | _ => Panics BadTypeAssertion
  end.

Definition assert_map (v : value) : outcome (gmap string value) :=
  match v with
  | VMap m => Returns m
  | _ => Panics BadTypeAssertion
  end.

(** Indexing a map: the zero value, a nil interface, for a missing key. *)
Definition index (m : gmap string value) (k : string) : value :=
  default VNil (m !! k).

(** [strconv.ParseUint] and [strconv.ParseInt].  An [int] is 64 bits
    wide, which is what a bit size of 0 selects. *)
Inductive NumErr : Type := ErrSyntax | ErrRange.

Definition digit_value (c : Ascii.ascii) : option Z :=
  let n := Z.of_N (Ascii.N_of_ascii c) in
  if (48 <=? n)%Z && (n <=? 57)%Z then Some (n - 48)%Z
  else if (97 <=? n)%Z && (n <=? 122)%Z then Some (n - 97 + 10)%Z
  else if (65 <=? n)%Z && (n <=? 90)%Z then Some (n - 65 + 10)%Z
  else None.

Definition two64 : Z := 2 ^ 64.

(** The digit loop of [ParseUint]: [n] is the value read so far. *)
Fixpoint ParseUint_digits (base : Z) (s : string) (n : Z) : Z * option NumErr :=
  match s with
  | EmptyString => (n, None)
  | String d rest =>
      match digit_value d with
      | None => (0, Some ErrSyntax)
      | Some v =>
          if (base <=? v)%Z then (0, Some ErrSyntax)
          else if ((two64 - 1) / base + 1 <=? n)%Z
          then (two64 - 1, Some ErrRange)
          else
            let n := (n * base)%Z in
            let n1 := ((n + v) mod two64)%Z in
            if (n1 <? n)%Z || (two64 - 1 <? n1)%Z
            then (two64 - 1, Some ErrRange)
            else ParseUint_digits base rest n1
      end
  end.

(** [ParseUint(s, 0, 64)]: the base comes from the prefix. *)
Definition ParseUint0 (s : string) : Z * option NumErr :=
  match s with
  | EmptyString => (0, Some ErrSyntax)
  | String "0"%char (String x rest) =>
      if bool_decide (x = "x"%char ∨ x = "X"%char) then
        match rest with
        | EmptyString => (0, Some ErrSyntax)
        | _ => ParseUint_digits 16 rest 0
        end
      else ParseUint_digits 8 s 0
  | String "0"%char EmptyString => ParseUint_digits 8 s 0
  | _ => ParseUint_digits 10 s 0
  end.

Definition dquote : string := String (Ascii.ascii_of_nat 34) EmptyString.

(** The message of a [NumError]; [strconv.Quote] is rendered without
    its escapes. *)
Definition NumError (fn s : string) (e : NumErr) : error :=
  "strconv." +:+ fn +:+ ": parsing " +:+ dquote +:+ s +:+ dquote +:+ ": " +:+
  match e with
  | ErrSyntax => "invalid syntax"
  | ErrRange => "value out of range"
  end.

(** [strconv.ParseInt(s, 0, 0)] *)
Definition ParseInt0 (s0 : string) : Z * option error :=
  match s0 with
  | EmptyString => (0%Z, Some (NumError "ParseInt" s0 ErrSyntax))
  | String c rest =>
      let neg := bool_decide (c = "-"%char) in
      let s := if bool_decide (c = "+"%char) || neg then rest else s0 in
      let cutoff := (2 ^ 63)%Z in
      match ParseUint0 s with
      | (_, Some ErrSyntax) => (0%Z, Some (NumError "ParseInt" s0 ErrSyntax))
      | (un, _) =>
          if negb neg && (cutoff <=? un)%Z
          then ((cutoff - 1)%Z, Some (NumError "ParseInt" s0 ErrRange))
          else if neg && (cutoff <? un)%Z
          then ((- cutoff)%Z, Some (NumError "ParseInt" s0 ErrRange))
          else ((if neg then - un else un)%Z, None)
      end
  end.

(** goamz: [elb.Listener], [ec2.UserSecurityGroup], [ec2.IPPerm] *)
Module elb.
Record Listener : Type := {
  InstancePort : Z;
  InstanceProtocol : string;
  LoadBalancerPort : Z;
  Protocol : string
}.
End elb.

Module ec2.
Record UserSecurityGroup : Type := {
  Id : string;
  Name : string;
  OwnerId : string
}.

Record IPPerm : Type := {
  Protocol : string;
  FromPort : Z;
  ToPort : Z;
  SourceIPs : list string;
  SourceGroups : list UserSecurityGroup
}.
End ec2.


(** *** structure.go *)

(** [expandListeners]: the loop over [configured], with the listeners
    appended so far.  The second [ParseInt] assigns [err] anew, so the
    test that follows sees the error of the [lb_port] conversion only. *)
Fixpoint expandListeners_from (configured : list value)
    (listeners : list elb.Listener)
    : outcome (list elb.Listener * option error) :=
  match configured with
  | [] => Returns (listeners, None)
  | listener :: rest =>
      newL ←! assert_map listener;
      instance_port ←! assert_string (index newL "instance_port");
      let '(instancePort, err) := ParseInt0 instance_port in
      lb_port ←! assert_string (index newL "lb_port");
      let '(lbPort, err) := ParseInt0 lb_port in
      match err with
      | Some e => Returns ([], Some e)
      | None =>
          instance_protocol ←! assert_string (index newL "instance_protocol");
          lb_protocol ←! assert_string (index newL "lb_protocol");
          let l := {| elb.InstancePort := instancePort;
                      elb.InstanceProtocol := instance_protocol;
                      elb.LoadBalancerPort := lbPort;
                      elb.Protocol := lb_protocol |} in
          expandListeners_from rest (listeners ++ [l])
      end
  end.

Definition expandListeners (configured : list value)
    : outcome (list elb.Listener * option error) :=
  expandListeners_from configured [].

Record ipPermKey : Type := {
  kProtocol : string;
  kFromPort : Z;
  kToPort : Z
}.

#[local] Instance ipPermKey_eq_dec : EqDecision ipPermKey.
Proof. solve_decision. Defined.

#[local] Instance ipPermKey_countable : Countable ipPermKey.
Proof.
  refine (inj_countable'
            (λ k, (kProtocol k, kFromPort k, kToPort k))
            (λ t, {| kProtocol := t.1.1; kFromPort := t.1.2; kToPort := t.2 |})
            _).
  by intros [].
Defined.

(** The [Less] methods of [sortableGroups], [sortableHosts] and
    [sortableRules]. *)
Definition sortableGroups_Less (a b : ec2.UserSecurityGroup) : bool :=
  str_lt (ec2.Id a) (ec2.Id b).

Definition sortableHosts_Less (a b : string) : bool := str_lt a b.

Definition sortableRules_Less (a b : ec2.IPPerm) : bool :=
  str_lt (ec2.Protocol a) (ec2.Protocol b)
  || (ec2.FromPort a <? ec2.FromPort b)
  || (ec2.ToPort a <? ec2.ToPort b).

(** One round of the first loop of [canonicaliseIPPerms]: [p] is merged
    into the rule of its key, which is created when the key is new. *)
Definition merge_perm (rules : gmap ipPermKey ec2.IPPerm) (p : ec2.IPPerm)
    : gmap ipPermKey ec2.IPPerm :=
  let key := {| kProtocol := ec2.Protocol p; kFromPort := ec2.FromPort p;
                kToPort := ec2.ToPort p |} in
  let rule :=
    match rules !! key with
    | Some rule => rule
    | None =>
        {| ec2.Protocol := ec2.Protocol p; ec2.FromPort := ec2.FromPort p;
           ec2.ToPort := ec2.ToPort p; ec2.SourceIPs := [];
           ec2.SourceGroups := [] |}
    end in
  let groups :=
    if (0 <? length (ec2.SourceGroups p))%nat
    then ec2.SourceGroups rule ++ ec2.SourceGroups p
    else ec2.SourceGroups rule in
  let ips :=
    if (0 <? length (ec2.SourceIPs p))%nat
    then ec2.SourceIPs rule ++ ec2.SourceIPs p
    else ec2.SourceIPs rule in
  <[key := {| ec2.Protocol := ec2.Protocol rule;
              ec2.FromPort := ec2.FromPort rule;
              ec2.ToPort := ec2.ToPort rule;
              ec2.SourceIPs := ips; ec2.SourceGroups := groups |}]> rules.

(** The body of the second loop: the rule with its hosts and groups
    sorted.  [sortableGroups.Less] looks at the id alone, so where two
    groups of a rule share their id the routine [so] that [sort.Sort]
    runs decides which comes first. *)
Definition sorted_within (so : sorter) (r : ec2.IPPerm) : ec2.IPPerm :=
  {| ec2.Protocol := ec2.Protocol r; ec2.FromPort := ec2.FromPort r;
     ec2.ToPort := ec2.ToPort r;
     ec2.SourceIPs := sorted_by so sortableHosts_Less (ec2.SourceIPs r);
     ec2.SourceGroups :=
       sorted_by so sortableGroups_Less (ec2.SourceGroups r) |}.

Definition canonicaliseIPPerms (so : sorter) (rg : ranger)
    (input : list ec2.IPPerm) : list ec2.IPPerm :=
  let rules := foldl merge_perm ∅ input in
  let res :=
    foldl (λ res kr, res ++ [sorted_within so kr.2]) [] (visit rg rules) in
  sorted_by so sortableRules_Less res.

(** What [canonicaliseIPPerms] is after: under each key, one rule with
    the hosts and groups of all input entries of that key, in input
    order. *)
Definition key_of (p : ec2.IPPerm) : ipPermKey :=
  {| kProtocol := ec2.Protocol p; kFromPort := ec2.FromPort p;
     kToPort := ec2.ToPort p |}.

Definition grouped (input : list ec2.IPPerm) (key : ipPermKey)
    : option ec2.IPPerm :=
  match filter (λ p, key_of p = key) input with
  | [] => None
  | ps =>
      Some {| ec2.Protocol := kProtocol key; ec2.FromPort := kFromPort key;
              ec2.ToPort := kToPort key;
              ec2.SourceIPs := ps ≫= ec2.SourceIPs;
              ec2.SourceGroups := ps ≫= ec2.SourceGroups |}
  end.

(** *** Inputs to run the functions on *)

(** A listener as the configuration spells it: four strings. *)
Record listener_strings : Type := {
  instance_port : string;
  instance_protocol : string;
  lb_port : string;
  lb_protocol : string
}.

Definition listener_config (l : listener_strings) : value :=
  VMap {[ "instance_port" := VString (instance_port l);
          "instance_protocol" := VString (instance_protocol l);
          "lb_port" := VString (lb_port l);
          "lb_protocol" := VString (lb_protocol l) ]}.

(** The listener the loop body builds from the four strings, and the
    error it tests: the one of the [lb_port] conversion. *)
Definition listener_of (l : listener_strings) : elb.Listener :=
  {| elb.InstancePort := (ParseInt0 (instance_port l)).1;
     elb.InstanceProtocol := instance_protocol l;
     elb.LoadBalancerPort := (ParseInt0 (lb_port l)).1;
     elb.Protocol := lb_protocol l |}.

Fixpoint first_lb_port_error (ls : list listener_strings) : option error :=
  match ls with
  | [] => None
  | l :: rest =>
      match (ParseInt0 (lb_port l)).2 with
      | Some e => Some e
      | None => first_lb_port_error rest
      end
  end.

Definition http_listener (instance_port lb_port : string) : listener_strings :=
  {| instance_port := instance_port; instance_protocol := "http";
     lb_port := lb_port; lb_protocol := "https" |}.

Definition perm (proto : string) (port : Z) (ips : list string) : ec2.IPPerm :=
  {| ec2.Protocol := proto; ec2.FromPort := port; ec2.ToPort := port;
     ec2.SourceIPs := ips; ec2.SourceGroups := [] |}.

(** HTTPS over tcp and DNS over udp. *)
Definition web_and_dns : list ec2.IPPerm :=
  [perm "tcp" 443 ["10.0.0.0/8"]; perm "udp" 53 ["10.0.0.0/8"]].

(** *** Properties of structure.go *)

Lemma expandListeners_from_cons (l : listener_strings) (rest : list value)
    (listeners : list elb.Listener) :
  expandListeners_from (listener_config l :: rest) listeners
  = match (ParseInt0 (lb_port l)).2 with
    | Some e => Returns ([], Some e)
    | None => expandListeners_from rest (listeners ++ [listener_of l])
    end.
Proof.
  cbn [expandListeners_from listener_config assert_map obind].
  change (index _ "instance_port") with (VString (instance_port l)).
  change (index _ "lb_port") with (VString (lb_port l)).
  change (index _ "instance_protocol") with (VString (instance_protocol l)).
  change (index _ "lb_protocol") with (VString (lb_protocol l)).
  cbn [assert_string obind]. unfold listener_of.
  destruct (ParseInt0 (instance_port l)) as [ip e1].
  destruct (ParseInt0 (lb_port l)) as [lp [e2|]]; reflexivity.
Qed.

(** On listeners given as four strings each, [expandListeners] returns
    the first error among the [lb_port] conversions, if there is one, and
    otherwise one listener per entry, in order; what the [instance_port]
    conversion reports plays no part. *)
Lemma expandListeners_tests_lb_port_only (ls : list listener_strings) :
  expandListeners (listener_config <$> ls)
  = match first_lb_port_error ls with
    | Some e => Returns ([], Some e)
    | None => Returns (listener_of <$> ls, None)
    end.
Proof.
  unfold expandListeners.
  assert (∀ acc,
            expandListeners_from (listener_config <$> ls) acc
            = match first_lb_port_error ls with
              | Some e => Returns ([], Some e)
              | None => Returns (acc ++ (listener_of <$> ls), None)
              end) as Hloop.
  { induction ls as [|l ls IH]; intros acc.
    - simpl. by rewrite app_nil_r.
    - rewrite fmap_cons, expandListeners_from_cons. simpl.
      destruct (ParseInt0 (lb_port l)).2; [done|].
      rewrite IH. destruct (first_lb_port_error ls); [done|].
      by rewrite <- app_assoc. }
  apply Hloop.
Qed.

(** C10, the failing input: the instance port "abc" does not convert,
    the load balancer port "80" does, and [expandListeners] returns a
    listener with instance port 0 and a nil error. *)
Theorem expandListeners_loses_instance_port_error :
  (ParseInt0 "abc").2 ≠ None
  ∧ expandListeners [listener_config (http_listener "abc" "80")]
    = Returns ([{| elb.InstancePort := 0; elb.InstanceProtocol := "http";
                   elb.LoadBalancerPort := 80; elb.Protocol := "https" |}],
               None).
Proof.
  split; [done|]. unfold expandListeners.
  rewrite expandListeners_from_cons. reflexivity.
Qed.

Example expandListeners_reports_lb_port :
  expandListeners [listener_config (http_listener "8080" "80");
                   listener_config (http_listener "8081" "https")]
  = Returns ([], Some (NumError "ParseInt" "https" ErrSyntax)).
Proof.
  apply (expandListeners_tests_lb_port_only
           [http_listener "8080" "80"; http_listener "8081" "https"]).
Qed.

Lemma foldl_snoc_fmap {A B} (f : A → B) (l : list A) (acc : list B) :
  foldl (λ acc x, acc ++ [f x]) acc l = acc ++ (f <$> l).
Proof.
  revert acc. induction l as [|x l IH]; intros acc; simpl.
  - by rewrite app_nil_r.
  - by rewrite IH, <- app_assoc.
Qed.

Lemma merge_perm_insert rules (p : ec2.IPPerm) :
  merge_perm rules p
  = <[key_of p :=
        let rule := default
          {| ec2.Protocol := ec2.Protocol p; ec2.FromPort := ec2.FromPort p;
             ec2.ToPort := ec2.ToPort p; ec2.SourceIPs := [];
             ec2.SourceGroups := [] |} (rules !! key_of p) in
        {| ec2.Protocol := ec2.Protocol rule;
           ec2.FromPort := ec2.FromPort rule; ec2.ToPort := ec2.ToPort rule;
           ec2.SourceIPs := ec2.SourceIPs rule ++ ec2.SourceIPs p;
           ec2.SourceGroups := ec2.SourceGroups rule ++ ec2.SourceGroups p |}]>
    rules.
Proof.
  unfold merge_perm. fold (key_of p).
  destruct (rules !! key_of p) as [rule|]; simpl;
    destruct (ec2.SourceGroups p), (ec2.SourceIPs p); simpl;
    by rewrite ?app_nil_r.
Qed.

(** The first loop groups the input by key. *)
Lemma rules_grouped (input : list ec2.IPPerm) (key : ipPermKey) :
  foldl merge_perm ∅ input !! key = grouped input key.
Proof.
  induction input as [|p input IH] using rev_ind; [done|].
  rewrite foldl_snoc, merge_perm_insert. unfold grouped in *.
  rewrite filter_app, (filter_singleton _ p []).
  destruct (decide (key_of p = key)) as [<-|Hne].
  - rewrite lookup_insert_eq, IH.
    destruct (filter (λ p0, key_of p0 = key_of p) input) as [|q ps]; simpl.
    + by rewrite !app_nil_r.
    + rewrite !bind_app. simpl. by rewrite !app_nil_r, <- !app_assoc.
  - rewrite lookup_insert_ne, IH by done. by rewrite app_nil_r.
Qed.

(** The rules returned are the groups, each with its hosts and groups
    sorted. *)
Lemma canonicaliseIPPerms_elem_of so rg (input : list ec2.IPPerm) r :
  r ∈ canonicaliseIPPerms so rg input
  ↔ ∃ key g, grouped input key = Some g ∧ r = sorted_within so g.
Proof.
  unfold canonicaliseIPPerms. cbv zeta.
  rewrite (sorted_by_perm so).
  rewrite (foldl_snoc_fmap (λ kr, sorted_within so kr.2)). simpl.
  rewrite list_elem_of_fmap. split.
  - intros ([key g] & -> & Hin). exists key, g. split; [|done].
    apply visit_elem_of in Hin. by rewrite rules_grouped in Hin.
  - intros (key & g & Hg & ->). exists (key, g). split; [done|].
    apply visit_elem_of. by rewrite rules_grouped.
Qed.

(** Whatever the iteration order, the same rules come out; only their
    order is open. *)
Lemma canonicaliseIPPerms_Permutation so rg1 rg2 (input : list ec2.IPPerm) :
  canonicaliseIPPerms so rg1 input ≡ₚ canonicaliseIPPerms so rg2 input.
Proof.
  unfold canonicaliseIPPerms. cbv zeta.
  rewrite !(sorted_by_perm so).
  rewrite !(foldl_snoc_fmap (λ kr, sorted_within so kr.2)). simpl.
  by rewrite (visit_perm rg1), (visit_perm rg2).
Qed.

Lemma canonicaliseIPPerms_hosts_sorted so rg (input : list ec2.IPPerm) r :
  r ∈ canonicaliseIPPerms so rg input →
  StronglySorted (λ a b, str_lt b a = false) (ec2.SourceIPs r).
Proof.
  unfold canonicaliseIPPerms. cbv zeta.
  rewrite (sorted_by_perm so).
  rewrite (foldl_snoc_fmap (λ kr, sorted_within so kr.2)). simpl.
  intros (kr & -> & _)%list_elem_of_fmap. simpl.
  apply (sorted_by_sorted so _ sortableHosts_Less);
    [apply str_lt_asym|apply str_lt_negtrans].
Qed.

(** On the two rules of [web_and_dns], visited in the order [first],
    [second], every slice handed to [sort.Sort] is shorter than seven
    elements, so the insertion sort runs. *)
Lemma canonicaliseIPPerms_web_and_dns so rg (first second : ec2.IPPerm) :
  (visit rg (foldl merge_perm ∅ web_and_dns)).*2 = [first; second] →
  (length (ec2.SourceIPs first) < 7)%nat →
  (length (ec2.SourceGroups first) < 7)%nat →
  (length (ec2.SourceIPs second) < 7)%nat →
  (length (ec2.SourceGroups second) < 7)%nat →
  canonicaliseIPPerms so rg web_and_dns
  = insertionSort sortableRules_Less
      [sorted_within insertion_sorter first;
       sorted_within insertion_sorter second].
Proof.
  intros Hvisit ? ? ? ?. unfold canonicaliseIPPerms. cbv zeta.
  rewrite (foldl_snoc_fmap (λ kr, sorted_within so kr.2)), app_nil_l.
  assert (∀ l : list (ipPermKey * ec2.IPPerm),
            (λ kr, sorted_within so kr.2) <$> l = sorted_within so <$> l.*2)
    as -> by (intros l; by rewrite <- list_fmap_compose).
  rewrite Hvisit.
  rewrite sorted_by_short by (simpl; lia).
  unfold sorted_within. cbn [fmap list_fmap insertion_sorter sorted_by].
  by rewrite !sorted_by_short.
Qed.

(** C9, the failing input: a tcp rule for port 443 and a udp rule for
    port 53.  [sortableRules.Less] puts each of the two before the
    other, and the list [canonicaliseIPPerms] returns follows the order
    in which the rules map happens to be iterated: two evaluations on
    the same input return different lists, whatever routine [sort.Sort]
    runs on longer slices. *)
Theorem canonicaliseIPPerms_follows_iteration_order :
  ∀ so : sorter,
  sortableRules_Less (perm "tcp" 443 []) (perm "udp" 53 []) = true
  ∧ sortableRules_Less (perm "udp" 53 []) (perm "tcp" 443 []) = true
  ∧ canonicaliseIPPerms so ascending_ranger web_and_dns
    = [perm "tcp" 443 ["10.0.0.0/8"]; perm "udp" 53 ["10.0.0.0/8"]]
  ∧ canonicaliseIPPerms so descending_ranger web_and_dns
    = [perm "udp" 53 ["10.0.0.0/8"]; perm "tcp" 443 ["10.0.0.0/8"]]
  ∧ canonicaliseIPPerms so ascending_ranger web_and_dns
    ≠ canonicaliseIPPerms so descending_ranger web_and_dns.
Proof.
  intros so.
  assert (canonicaliseIPPerms so ascending_ranger web_and_dns
          = [perm "tcp" 443 ["10.0.0.0/8"]; perm "udp" 53 ["10.0.0.0/8"]])
    as Hup.
  { rewrite (canonicaliseIPPerms_web_and_dns so ascending_ranger
               (perm "udp" 53 ["10.0.0.0/8"]) (perm "tcp" 443 ["10.0.0.0/8"]));
      [|vm_compute; reflexivity|simpl; lia..].
    vm_compute. reflexivity. }
  assert (canonicaliseIPPerms so descending_ranger web_and_dns
          = [perm "udp" 53 ["10.0.0.0/8"]; perm "tcp" 443 ["10.0.0.0/8"]])
    as Hdown.
  { rewrite (canonicaliseIPPerms_web_and_dns so descending_ranger
               (perm "tcp" 443 ["10.0.0.0/8"]) (perm "udp" 53 ["10.0.0.0/8"]));
      [|vm_compute; reflexivity|simpl; lia..].
    vm_compute. reflexivity. }
  split_and!; [reflexivity|reflexivity|exact Hup|exact Hdown|].
  rewrite Hup, Hdown. intros Heq. inversion Heq.
Qed.

(** *** The other helpers of structure.go *)

(** [strings.Contains(s, ",")] and [strings.Split(s, ",")]: the only
    separator the package passes is the comma. *)
Definition comma : Ascii.ascii := ","%char.

Fixpoint Contains_comma (s : string) : bool :=
  match s with
  | EmptyString => false
  | String a rest => Ascii.eqb a comma || Contains_comma rest
  end.

Fixpoint Split_comma (s : string) : list string :=
  match s with
  | EmptyString => [""]
  | String a rest =>
      if Ascii.eqb a comma then "" :: Split_comma rest
      else
        match Split_comma rest with
        | field :: fields => String a field :: fields
        | [] => [String a ""]
        end
  end.

(** The loop of [expandStringList], with the strings appended so far. *)
Fixpoint expandStringList_from (configured : list value) (vs : list string)
    : outcome (list string) :=
  match configured with
  | [] => Returns vs
  | v :: rest =>
      s ←! assert_string v;
      expandStringList_from rest (vs ++ [s])
  end.

(** [expandStringList]: a single string holding commas is taken for an
    expanded splat and split. *)
Definition expandStringList (configured : list value)
    : outcome (list string) :=
  match configured with
  | [v] =>
      s ←! assert_string v;
      if Contains_comma s
      then s' ←! assert_string v; Returns (Split_comma s')
      else expandStringList_from configured []
  | _ => expandStringList_from configured []
  end.

(** [strconv.Atoi]: [ParseInt(s, 10, 0)], whose unsigned part reads the
    digits in base 10 without looking for a prefix. *)
Definition ParseUint10 (s : string) : Z * option NumErr :=
  match s with
  | EmptyString => (0, Some ErrSyntax)
  | _ => ParseUint_digits 10 s 0
  end.

Definition Atoi (s0 : string) : Z * option error :=
  match s0 with
  | EmptyString => (0%Z, Some (NumError "ParseInt" s0 ErrSyntax))
  | String c rest =>
      let neg := bool_decide (c = "-"%char) in
      let s := if bool_decide (c = "+"%char) || neg then rest else s0 in
      let cutoff := (2 ^ 63)%Z in
      match ParseUint10 s with
      | (_, Some ErrSyntax) => (0%Z, Some (NumError "ParseInt" s0 ErrSyntax))
      | (un, _) =>
          if negb neg && (cutoff <=? un)%Z
          then ((cutoff - 1)%Z, Some (NumError "ParseInt" s0 ErrRange))
          else if neg && (cutoff <? un)%Z
          then ((- cutoff)%Z, Some (NumError "ParseInt" s0 ErrRange))
          else ((if neg then - un else un)%Z, None)
      end
  end.

(** The two port blocks of [expandIPPerms]: a string goes through
    [Atoi], an int is taken as it is, anything else leaves the zero of
    the fresh [IPPerm]. *)
Definition port_attr (newP : gmap string value) (key : string)
    : Z * option error :=
  match index newP key with
  | VString attr => Atoi attr
  | VInt attr => (attr, None)
  | _ => (0, None)
  end.

(** The blocks for [security_groups] and [cidr_blocks]: the list is
    expanded when the value is a [[]interface{}]. *)
Definition strings_attr (newP : gmap string value) (key : string)
    : outcome (list string) :=
  match index newP key with
  | VList l => expandStringList l
  | _ => Returns []
  end.

Definition group_of_id (g : string) : ec2.UserSecurityGroup :=
  {| ec2.Id := g; ec2.Name := ""; ec2.OwnerId := "" |}.

Fixpoint expandIPPerms_from (configured : list value)
    (perms : list ec2.IPPerm) : outcome (list ec2.IPPerm * option error) :=
  match configured with
  | [] => Returns (perms, None)
  | perm :: rest =>
      newP ←! assert_map perm;
      match port_attr newP "from_port" with
      | (_, Some err) => Returns ([], Some err)
      | (fromPort, None) =>
          match port_attr newP "to_port" with
          | (_, Some err) => Returns ([], Some err)
          | (toPort, None) =>
              let protocol :=
                match index newP "protocol" with
                | VString attr => attr
                | _ => ""
                end in
              gs ←! strings_attr newP "security_groups";
              cidrBlocks ←! strings_attr newP "cidr_blocks";
              let p := {| ec2.Protocol := protocol; ec2.FromPort := fromPort;
                          ec2.ToPort := toPort; ec2.SourceIPs := cidrBlocks;
                          ec2.SourceGroups := group_of_id <$> gs |} in
              expandIPPerms_from rest (perms ++ [p])
          end
      end
  end.

Definition expandIPPerms (configured : list value)
    : outcome (list ec2.IPPerm * option error) :=
  expandIPPerms_from configured [].

(** The values [flattenIPPerms] stores: an int, a string, a
    [[]string]. *)
Inductive flat_value : Type :=
  | FInt (n : Z)
  | FString (s : string)
  | FStrings (l : list string).

Definition flattenSecurityGroups (groups : list ec2.UserSecurityGroup)
    : list string :=
  foldl (λ result g, result ++ [ec2.Id g]) [] groups.

Definition flattenIPPerm (perm : ec2.IPPerm) : gmap string flat_value :=
  let n := ∅ in
  let n := <["from_port" := FInt (ec2.FromPort perm)]> n in
  let n := <["protocol" := FString (ec2.Protocol perm)]> n in
  let n := <["to_port" := FInt (ec2.ToPort perm)]> n in
  let n :=
    if (0 <? length (ec2.SourceIPs perm))%nat
    then <["cidr_blocks" := FStrings (ec2.SourceIPs perm)]> n
    else n in
  let v := flattenSecurityGroups (ec2.SourceGroups perm) in
  if (0 <? length v)%nat then <["security_groups" := FStrings v]> n else n.

Definition flattenIPPerms (perms : list ec2.IPPerm)
    : list (gmap string flat_value) :=
  foldl (λ result perm, result ++ [flattenIPPerm perm]) [] perms.

(** [autoscaling.LoadBalancerName] and [flattenLoadBalancers] *)
Record LoadBalancerName : Type := { lbName : string }.

Definition flattenLoadBalancers (names : list LoadBalancerName)
    : list string :=
  foldl (λ result g,
           if bool_decide (lbName g ≠ "") then result ++ [lbName g] else result)
        [] names.

(** *** Reading the helpers' results

    [Join_comma] is [strings.Join(l, ",")].  [retyped] hands a flattened
    value on with the dynamic type [expandIPPerms] asserts: an int and a
    string as they are, a [[]string] as a [[]interface{}] of strings. *)
Fixpoint Join_comma (l : list string) : string :=
  match l with
  | [] => ""
  | [s] => s
  | s :: rest => s +:+ String comma (Join_comma rest)
  end.

Definition retyped (v : flat_value) : value :=
  match v with
  | FInt n => VInt n
  | FString s => VString s
  | FStrings l => VList (VString <$> l)
  end.

(** A list that [expandStringList] returns as it stands: not a single
    string holding a comma. *)
Definition plain (l : list string) : Prop :=
  ∀ s, l = [s] → Contains_comma s = false.

(** How a rule has to look for [flattenIPPerms] and [expandIPPerms] to
    be inverse on it: its groups carry nothing but an id, and neither
    its hosts nor its group ids are a single string holding a comma. *)
Definition tame (p : ec2.IPPerm) : Prop :=
  plain (ec2.SourceIPs p)
  ∧ plain (ec2.Id <$> ec2.SourceGroups p)
  ∧ Forall (λ g, ec2.Name g = "" ∧ ec2.OwnerId g = "") (ec2.SourceGroups p).

(** *** Properties of the other helpers *)

Lemma expandStringList_from_strings (l vs : list string) :
  expandStringList_from (VString <$> l) vs = Returns (vs ++ l).
Proof.
  revert vs. induction l as [|s l IH]; intros vs; simpl.
  - by rewrite app_nil_r.
  - by rewrite IH, <- app_assoc.
Qed.

Lemma expandStringList_from_returns (configured : list value) vs :
  returns (expandStringList_from configured vs)
  ↔ Forall (λ v, ∃ s, v = VString s) configured.
Proof.
  revert vs. induction configured as [|v rest IH]; intros vs; simpl.
  - split; [constructor|]. intros _. by eexists.
  - rewrite Forall_cons. destruct v; simpl;
      try (split; [by intros [? ?]|by intros [[? ?] _]]).
    rewrite IH. split; [eauto|]. by intros [_ ?].
Qed.

Lemma Split_comma_not_nil s : Split_comma s ≠ [].
Proof.
  destruct s as [|a s]; simpl; [done|].
  destruct (Ascii.eqb a comma); [done|]. by destruct (Split_comma s).
Qed.

Lemma Split_comma_field (x s : string) :
  Contains_comma x = false →
  Split_comma (x +:+ String comma s) = x :: Split_comma s.
Proof.
  induction x as [|a x IH]; simpl; intros Hx; [done|].
  apply orb_false_iff in Hx as [Ha Hx]. by rewrite Ha, (IH Hx).
Qed.

Lemma Split_comma_whole (x : string) :
  Contains_comma x = false → Split_comma x = [x].
Proof.
  induction x as [|a x IH]; simpl; intros Hx; [done|].
  apply orb_false_iff in Hx as [Ha Hx]. by rewrite Ha, (IH Hx).
Qed.

Lemma Contains_comma_app (x s : string) :
  Contains_comma (x +:+ String comma s) = true.
Proof.
  induction x as [|a x IH]; simpl; [done|].
  rewrite IH. apply orb_true_r.
Qed.

Lemma Split_Join_comma (l : list string) :
  l ≠ [] → Forall (λ s, Contains_comma s = false) l →
  Split_comma (Join_comma l) = l.
Proof.
  induction l as [|s [|s' l] IH]; intros Hne Hl; [done| |].
  - simpl. apply Split_comma_whole. by inversion Hl.
  - apply Forall_cons in Hl as [Hs Hl].
    change (Join_comma (s :: s' :: l))
      with (s +:+ String comma (Join_comma (s' :: l))).
    rewrite (Split_comma_field _ _ Hs). f_equal. by apply IH.
Qed.


Lemma expandListeners_from_app (ls : list listener_strings)
    (rest : list value) (listeners : list elb.Listener) :
  expandListeners_from ((listener_config <$> ls) ++ rest) listeners
  = match first_lb_port_error ls with
    | Some e => Returns ([], Some e)
    | None => expandListeners_from rest (listeners ++ (listener_of <$> ls))
    end.
Proof.
  revert listeners. induction ls as [|l ls IH]; intros listeners.
  - simpl. by rewrite app_nil_r.
  - rewrite fmap_cons, <- app_comm_cons, expandListeners_from_cons. simpl.
    destruct (ParseInt0 (lb_port l)).2; [done|].
    rewrite IH. destruct (first_lb_port_error ls); [done|].
    by rewrite <- app_assoc.
Qed.

(** X2: after listeners given as four strings each, an entry that is not
    a map, or whose [instance_port] is missing or not a string, makes
    [expandListeners] panic on the type assertion, whatever follows it,
    unless the [lb_port] of a listener before it does not convert: then
    the error of the first such conversion is returned and the entry is
    never reached. *)
Theorem expandListeners_panics_without_instance_port
    (ls : list listener_strings) (v : value) (rest : list value) :
  (∀ m s, v = VMap m → index m "instance_port" ≠ VString s) →
  expandListeners ((listener_config <$> ls) ++ v :: rest)
  = match first_lb_port_error ls with
    | Some e => Returns ([], Some e)
    | None => Panics BadTypeAssertion
    end.
Proof.
  intros Hv. unfold expandListeners. rewrite expandListeners_from_app.
  destruct (first_lb_port_error ls); [done|]. simpl.
  destruct v as [| | | |m|]; try done. simpl.
  destruct (index m "instance_port") as [|s| | | |] eqn:Hport; try done.
  by destruct (Hv m s).
Qed.

Lemma expandStringList_strings (l : list string) :
  plain l → expandStringList (VString <$> l) = Returns l.
Proof.
  intros Hl. destruct l as [|s [|s' l]].
  - done.
  - simpl. by rewrite (Hl s eq_refl).
  - apply (expandStringList_from_strings (s :: s' :: l) []).
Qed.

(** X3: on a list of strings that is not a single string holding a
    comma, [expandStringList] returns the strings as they are, in
    order. *)
Theorem expandStringList_plain (l : list string) :
  plain l → expandStringList (VString <$> l) = Returns l.
Proof.
  intros Hl. destruct l as [|s [|s' l]].
  - done.
  - simpl. by rewrite (Hl s eq_refl).
  - apply (expandStringList_from_strings (s :: s' :: l) []).
Qed.

(** X4: the splat form round-trips: for a non-empty list of strings none
    of which holds a comma, [expandStringList] of the one string that
    joins them with commas returns the list. *)
Theorem expandStringList_of_joined (l : list string) :
  l ≠ [] → Forall (λ s, Contains_comma s = false) l →
  expandStringList [VString (Join_comma l)] = Returns l.
Proof.
  intros Hne Hl. destruct l as [|s [|s' l]]; [done| |].
  - simpl. apply Forall_cons in Hl as [Hs _]. by rewrite Hs.
  - unfold expandStringList. cbn [assert_string obind].
    change (Join_comma (s :: s' :: l))
      with (s +:+ String comma (Join_comma (s' :: l))).
    rewrite Contains_comma_app.
    change (s +:+ String comma (Join_comma (s' :: l)))
      with (Join_comma (s :: s' :: l)).
    by rewrite Split_Join_comma.
Qed.

(** X5: [expandStringList] returns, rather than panics, exactly when
    every element of the list is a string. *)
Theorem expandStringList_returns_iff (configured : list value) :
  returns (expandStringList configured)
  ↔ Forall (λ v, ∃ s, v = VString s) configured.
Proof.
  destruct configured as [|v [|v' rest]].
  - split; [constructor|]. intros _. by eexists.
  - rewrite Forall_singleton. unfold expandStringList.
    destruct v; simpl; try (split; [by intros [? ?]|by intros [? ?]]).
    split; [eauto|]. intros _. destruct (Contains_comma s); by eexists.
  - apply expandStringList_from_returns.
Qed.

Lemma flattenSecurityGroups_ids (groups : list ec2.UserSecurityGroup) :
  flattenSecurityGroups groups = ec2.Id <$> groups.
Proof. apply (foldl_snoc_fmap ec2.Id). Qed.

Lemma group_of_id_Id (groups : list ec2.UserSecurityGroup) :
  Forall (λ g, ec2.Name g = "" ∧ ec2.OwnerId g = "") groups →
  group_of_id <$> (ec2.Id <$> groups) = groups.
Proof.
  induction 1 as [|g groups [Hname Howner] _ IH]; [done|].
  rewrite !fmap_cons, IH. destruct g; simpl in *. by subst.
Qed.

Lemma expandIPPerms_from_flattened (p : ec2.IPPerm) (rest : list value)
    (perms : list ec2.IPPerm) :
  tame p →
  expandIPPerms_from (VMap (retyped <$> flattenIPPerm p) :: rest) perms
  = expandIPPerms_from rest (perms ++ [p]).
Proof.
  intros (Hips & Hids & Hgroups). destruct p as [proto from to ips groups].
  simpl in *. unfold flattenIPPerm. rewrite flattenSecurityGroups_ids.
  cbn [expandIPPerms_from assert_map obind ec2.FromPort ec2.ToPort
       ec2.Protocol ec2.SourceIPs ec2.SourceGroups].
  unfold port_attr, strings_attr.
  assert (group_of_id <$> (ec2.Id <$> groups) = groups) as Hback
    by by apply group_of_id_Id.
  remember (ec2.Id <$> groups) as ids eqn:Hidseq. clear Hidseq Hgroups.
  destruct ips as [|ip ips], ids as [|id ids]; cbn [length Nat.ltb Nat.leb].
  - change (index _ "from_port") with (VInt from).
    change (index _ "to_port") with (VInt to).
    change (index _ "protocol") with (VString proto).
    change (index _ "security_groups") with VNil.
    change (index _ "cidr_blocks") with VNil.
    cbv beta iota zeta. cbn [obind]. by rewrite <- Hback.
  - change (index _ "from_port") with (VInt from).
    change (index _ "to_port") with (VInt to).
    change (index _ "protocol") with (VString proto).
    change (index _ "security_groups") with (VList (VString <$> id :: ids)).
    change (index _ "cidr_blocks") with VNil.
    cbv beta iota zeta.
    rewrite (expandStringList_strings _ Hids). cbn [obind]. by rewrite Hback.
  - change (index _ "from_port") with (VInt from).
    change (index _ "to_port") with (VInt to).
    change (index _ "protocol") with (VString proto).
    change (index _ "security_groups") with VNil.
    change (index _ "cidr_blocks") with (VList (VString <$> ip :: ips)).
    cbv beta iota zeta.
    rewrite (expandStringList_strings _ Hips). cbn [obind].
    by rewrite <- Hback.
  - change (index _ "from_port") with (VInt from).
    change (index _ "to_port") with (VInt to).
    change (index _ "protocol") with (VString proto).
    change (index _ "security_groups") with (VList (VString <$> id :: ids)).
    change (index _ "cidr_blocks") with (VList (VString <$> ip :: ips)).
    cbv beta iota zeta.
    rewrite (expandStringList_strings _ Hids), (expandStringList_strings _ Hips).
    cbn [obind]. by rewrite Hback.
Qed.

(** X6: [expandIPPerms] undoes [flattenIPPerms]: on rules whose groups
    carry only an id and whose host and group lists are not a single
    string holding a comma, expanding the flattened rules, with each
    [[]string] handed on as a [[]interface{}] of strings, returns the
    rules and a nil error. *)
Theorem expandIPPerms_flattenIPPerms (perms : list ec2.IPPerm) :
  Forall tame perms →
  expandIPPerms ((λ n, VMap (retyped <$> n)) <$> flattenIPPerms perms)
  = Returns (perms, None).
Proof.
  intros Hperms. unfold expandIPPerms, flattenIPPerms.
  rewrite (foldl_snoc_fmap flattenIPPerm). simpl.
  assert (∀ acc,
            expandIPPerms_from
              ((λ n, VMap (retyped <$> n)) <$> (flattenIPPerm <$> perms)) acc
            = Returns (acc ++ perms, None)) as Hloop.
  { induction Hperms as [|p perms Hp _ IH]; intros acc.
    - simpl. by rewrite app_nil_r.
    - rewrite !fmap_cons, (expandIPPerms_from_flattened _ _ _ Hp), IH.
      by rewrite <- app_assoc. }
  apply Hloop.
Qed.

Lemma expandIPPerms_from_app (l1 l2 : list value) (perms : list ec2.IPPerm) :
  expandIPPerms_from (l1 ++ l2) perms
  = match expandIPPerms_from l1 perms with
    | Returns (perms', None) => expandIPPerms_from l2 perms'
    | stopped => stopped
    end.
Proof.
  revert perms. induction l1 as [|v l1 IH]; intros perms; [done|].
  cbn [app expandIPPerms_from].
  destruct (assert_map v) as [newP|]; [|done]. cbn [obind].
  destruct (port_attr newP "from_port") as [fromPort [e|]]; [done|].
  destruct (port_attr newP "to_port") as [toPort [e|]]; [done|].
  destruct (strings_attr newP "security_groups") as [gs|]; [|done].
  cbn [obind].
  destruct (strings_attr newP "cidr_blocks") as [ips|]; [|done].
  cbn [obind]. apply IH.
Qed.

(** X7: a [from_port] string that [Atoi] rejects makes [expandIPPerms]
    return that error and no rules at all: the rules expanded before it
    are dropped, the entries after it are not looked at. *)
Theorem expandIPPerms_bad_from_port (before after : list value)
    (m : gmap string value) (done_ : list ec2.IPPerm) (attr : string) e :
  expandIPPerms before = Returns (done_, None) →
  index m "from_port" = VString attr →
  (Atoi attr).2 = Some e →
  expandIPPerms (before ++ VMap m :: after) = Returns ([], Some e).
Proof.
  intros Hbefore Hport Herr. unfold expandIPPerms in *.
  rewrite expandIPPerms_from_app, Hbefore.
  cbn [expandIPPerms_from assert_map obind]. unfold port_attr at 1.
  rewrite Hport. destruct (Atoi attr) as [n err]. simpl in Herr.
  by rewrite Herr.
Qed.

(** X8: [flattenLoadBalancers] leaves out the empty names and keeps the
    others in order. *)
Theorem flattenLoadBalancers_drops_empty (names : list LoadBalancerName) :
  flattenLoadBalancers names = filter (λ x, x ≠ "") (lbName <$> names)
  ∧ "" ∉ flattenLoadBalancers names.
Proof.
  assert (flattenLoadBalancers names = filter (λ x, x ≠ "") (lbName <$> names))
    as Heq.
  { unfold flattenLoadBalancers.
    assert (∀ acc,
              foldl (λ result g,
                       if bool_decide (lbName g ≠ "")
                       then result ++ [lbName g] else result) acc names
              = acc ++ filter (λ x, x ≠ "") (lbName <$> names)) as Hloop.
    { induction names as [|g names IH]; intros acc; simpl.
      - by rewrite app_nil_r.
      - rewrite IH, filter_cons. case_bool_decide; case_decide; try done.
        by rewrite <- app_assoc. }
    apply Hloop. }
  split; [done|]. rewrite Heq. by intros [? _]%list_elem_of_filter.
Qed.

Lemma rules_dom (input : list ec2.IPPerm) :
  dom (foldl merge_perm ∅ input) = list_to_set (key_of <$> input).
Proof.
  apply set_eq. intros key.
  rewrite elem_of_dom, rules_grouped, elem_of_list_to_set, list_elem_of_fmap.
  unfold grouped.
  destruct (filter (λ p, key_of p = key) input) as [|q ps] eqn:Hfilter.
  - split; [by intros [? ?]|]. intros (p & -> & Hin). exfalso.
    by eapply (filter_nil_not_elem_of _ _ p); eauto.
  - split; [|by eauto]. intros _.
    assert (q ∈ filter (λ p, key_of p = key) input) as Hq
      by (rewrite Hfilter; by left).
    apply list_elem_of_filter in Hq as [Hkey Hin]. eauto.
Qed.

Lemma grouped_key (input : list ec2.IPPerm) key g :
  grouped input key = Some g → key_of g = key.
Proof.
  unfold grouped. destruct (filter _ input); [done|].
  intros [= <-]. by destruct key.
Qed.

Lemma grouped_members (input : list ec2.IPPerm) key g :
  grouped input key = Some g →
  ec2.SourceIPs g = filter (λ p, key_of p = key) input ≫= ec2.SourceIPs
  ∧ ec2.SourceGroups g
    = filter (λ p, key_of p = key) input ≫= ec2.SourceGroups.
Proof.
  unfold grouped. destruct (filter _ input); [done|]. by intros [= <-].
Qed.

Lemma grouped_is_Some (input : list ec2.IPPerm) key :
  is_Some (grouped input key) ↔ key ∈ key_of <$> input.
Proof.
  rewrite <- rules_grouped, <- elem_of_dom, rules_dom.
  by rewrite elem_of_list_to_set.
Qed.

Lemma canonicaliseIPPerms_key_unique so rg (input : list ec2.IPPerm) r1 r2 :
  r1 ∈ canonicaliseIPPerms so rg input →
  r2 ∈ canonicaliseIPPerms so rg input →
  key_of r1 = key_of r2 → r1 = r2.
Proof.
  intros (k1 & g1 & Hg1 & ->)%canonicaliseIPPerms_elem_of
         (k2 & g2 & Hg2 & ->)%canonicaliseIPPerms_elem_of Hkey.
  change (key_of g1 = key_of g2) in Hkey.
  rewrite (grouped_key _ _ _ Hg1), (grouped_key _ _ _ Hg2) in Hkey.
  subst. congruence.
Qed.

(** X9: whatever the iteration order and the sorting routine,
    [canonicaliseIPPerms] returns one rule per distinct (Protocol,
    FromPort, ToPort) of the input: as many rules as there are such
    keys, a rule for every one of them, and no two rules of the same
    key.  The rule of a key holds the hosts and the groups of all input
    entries of that key, rearranged. *)
Theorem canonicaliseIPPerms_one_rule_per_key so rg (input : list ec2.IPPerm) :
  length (canonicaliseIPPerms so rg input)
  = size (list_to_set (key_of <$> input) : gset ipPermKey)
  ∧ (∀ key, key ∈ key_of <$> input
            ↔ ∃ r, r ∈ canonicaliseIPPerms so rg input ∧ key_of r = key)
  ∧ (∀ r1 r2, r1 ∈ canonicaliseIPPerms so rg input →
              r2 ∈ canonicaliseIPPerms so rg input →
              key_of r1 = key_of r2 → r1 = r2)
  ∧ ∀ r, r ∈ canonicaliseIPPerms so rg input →
         ec2.SourceIPs r
         ≡ₚ filter (λ p, key_of p = key_of r) input ≫= ec2.SourceIPs
         ∧ ec2.SourceGroups r
           ≡ₚ filter (λ p, key_of p = key_of r) input ≫= ec2.SourceGroups.
Proof.
  split_and!.
  - unfold canonicaliseIPPerms. cbv zeta.
    rewrite (sorted_by_perm so).
    rewrite (foldl_snoc_fmap (λ kr, sorted_within so kr.2)). simpl.
    rewrite length_fmap, (visit_perm rg), <- rules_dom, size_dom.
    apply length_map_to_list.
  - intros key. rewrite <- grouped_is_Some. split.
    + intros [g Hg]. exists (sorted_within so g). split.
      * apply canonicaliseIPPerms_elem_of. eauto.
      * apply (grouped_key _ _ _ Hg).
    + intros (r & (k & g & Hg & ->)%canonicaliseIPPerms_elem_of & <-).
      change (key_of (sorted_within so g)) with (key_of g).
      rewrite (grouped_key _ _ _ Hg). eauto.
  - apply canonicaliseIPPerms_key_unique.
  - intros r (key & g & Hg & ->)%canonicaliseIPPerms_elem_of.
    change (key_of (sorted_within so g)) with (key_of g).
    rewrite (grouped_key _ _ _ Hg).
    destruct (grouped_members _ _ _ Hg) as [<- <-].
    cbn [sorted_within ec2.SourceIPs ec2.SourceGroups].
    by rewrite !(sorted_by_perm so).
Qed.



(** The security groups of the input are told apart by their ids: no
    two different groups share an id. *)
Definition ids_name_groups (input : list ec2.IPPerm) : Prop :=
  ∀ g g', g ∈ input ≫= ec2.SourceGroups → g' ∈ input ≫= ec2.SourceGroups →
          ec2.Id g = ec2.Id g' → g = g'.

Lemma sorted_within_idemp so (input : list ec2.IPPerm) key g :
  ids_name_groups input → grouped input key = Some g →
  sorted_within so (sorted_within so g) = sorted_within so g.
Proof.
  intros Hids Hg. unfold sorted_within. cbn. f_equal.
  - apply sorted_by_twice.
    + intros a b. apply str_lt_asym.
    + intros a b c. apply str_lt_negtrans.
    + intros a b _ _ Hab Hba. unfold sortableHosts_Less in *.
      destruct (decide (a = b)) as [|Hne]; [done|].
      by rewrite (str_lt_trichotomy _ _ Hab Hne) in Hba.
  - apply sorted_by_twice.
    + intros a b. apply str_lt_asym.
    + intros a b c. apply str_lt_negtrans.
    + assert (∀ a, a ∈ ec2.SourceGroups g → a ∈ input ≫= ec2.SourceGroups)
        as Hsub.
      { destruct (grouped_members _ _ _ Hg) as [_ ->].
        intros a (p & Ha & [_ Hp]%list_elem_of_filter)%list_elem_of_bind.
        apply list_elem_of_bind. eauto. }
      intros a b Ha Hb Hab Hba. apply Hids; [by apply Hsub..|].
      unfold sortableGroups_Less in *.
      destruct (decide (ec2.Id a = ec2.Id b)) as [|Hne]; [done|].
      by rewrite (str_lt_trichotomy _ _ Hab Hne) in Hba.
Qed.

Lemma canonicaliseIPPerms_NoDup so rg (input : list ec2.IPPerm) :
  NoDup (canonicaliseIPPerms so rg input).
Proof.
  unfold canonicaliseIPPerms. cbv zeta.
  rewrite (sorted_by_perm so).
  rewrite (foldl_snoc_fmap (λ kr, sorted_within so kr.2)). simpl.
  apply NoDup_fmap_2_strong.
  - intros [k1 g1] [k2 g2] Hin1 Hin2 Heq. simpl in Heq.
    apply visit_elem_of in Hin1, Hin2.
    rewrite rules_grouped in Hin1, Hin2.
    assert (k1 = k2) as ->.
    { rewrite <- (grouped_key _ _ _ Hin1), <- (grouped_key _ _ _ Hin2).
      change (key_of (sorted_within so g1) = key_of (sorted_within so g2)).
      by rewrite Heq. }
    congruence.
  - eapply NoDup_fmap_1, visit_NoDup_fst.
Qed.

Lemma grouped_canonical so rg (input : list ec2.IPPerm) key :
  grouped (canonicaliseIPPerms so rg input) key
  = sorted_within so <$> grouped input key.
Proof.
  set (out := canonicaliseIPPerms so rg input).
  assert (∀ r, r ∈ filter (λ p, key_of p = key) out
               ↔ ∃ g, grouped input key = Some g ∧ r = sorted_within so g)
    as Hfilter.
  { intros r. rewrite list_elem_of_filter. unfold out.
    rewrite canonicaliseIPPerms_elem_of. split.
    - intros (Hkey & k & g & Hg & ->). exists g. split; [|done].
      change (key_of g = key) in Hkey.
      by rewrite (grouped_key _ _ _ Hg) in Hkey; subst.
    - intros (g & Hg & ->). split; [apply (grouped_key _ _ _ Hg)|eauto]. }
  assert (NoDup (filter (λ p, key_of p = key) out)) as Hnd
    by apply NoDup_filter, canonicaliseIPPerms_NoDup.
  unfold grouped at 1.
  destruct (grouped input key) as [g|] eqn:Hg; simpl.
  - assert (filter (λ p, key_of p = key) out = [sorted_within so g]) as ->.
    { apply Permutation_singleton_r, NoDup_Permutation;
        [done|apply NoDup_singleton|].
      intros r. rewrite Hfilter, list_elem_of_singleton. naive_solver. }
    cbn. rewrite !app_nil_r.
    pose proof (grouped_key _ _ _ Hg) as <-. done.
  - destruct (filter (λ p, key_of p = key) out) as [|r rs] eqn:Hrs; [done|].
    assert (r ∈ r :: rs) as Hr by by left.
    apply Hfilter in Hr as (g & ? & _). done.
Qed.

(** X22: where no two different security groups of the input share an
    id, the result of [canonicaliseIPPerms] is a fixed point up to the
    order of the rules: canonicalising it again, under any iteration
    order, returns the same rules with the same hosts and groups in the
    same order inside each. *)
Theorem canonicaliseIPPerms_twice so rg1 rg2 (input : list ec2.IPPerm) :
  ids_name_groups input →
  canonicaliseIPPerms so rg2 (canonicaliseIPPerms so rg1 input)
  ≡ₚ canonicaliseIPPerms so rg1 input.
Proof.
  intros Hids.
  apply NoDup_Permutation; [apply canonicaliseIPPerms_NoDup..|].
  intros r. rewrite !canonicaliseIPPerms_elem_of. split.
  - intros (key & g2 & Hg2 & ->). rewrite grouped_canonical in Hg2.
    destruct (grouped input key) as [g|] eqn:Hg; [|done].
    injection Hg2 as <-. exists key, g.
    by rewrite (sorted_within_idemp so input key g).
  - intros (key & g & Hg & ->). exists key, (sorted_within so g).
    by rewrite grouped_canonical, Hg, (sorted_within_idemp so input key g).
Qed.

(** *** The properties on concrete inputs *)


(** A listener entry that lacks its [instance_port]. *)
Definition portless : value :=
  VMap {[ "instance_protocol" := VString "http"; "lb_port" := VString "80";
          "lb_protocol" := VString "https" ]}.

Lemma expandListeners_panics_witness :
  (∀ m s, portless = VMap m → index m "instance_port" ≠ VString s)
  ∧ expandListeners
      ((listener_config <$> [http_listener "8080" "80"])
         ++ portless :: [listener_config (http_listener "8081" "81")])
    = Panics BadTypeAssertion
  ∧ expandListeners
      ((listener_config <$> [http_listener "8080" "https"])
         ++ portless :: [listener_config (http_listener "8081" "81")])
    = Returns ([], Some (NumError "ParseInt" "https" ErrSyntax)).
Proof.
  assert (∀ m s, portless = VMap m → index m "instance_port" ≠ VString s)
    as Hlacks.
  { intros m s Hm. injection Hm as <-. intros Hport.
    vm_compute in Hport. discriminate Hport. }
  split_and!; [exact Hlacks| |].
  - exact (expandListeners_panics_without_instance_port
             [http_listener "8080" "80"] portless
             [listener_config (http_listener "8081" "81")] Hlacks).
  - exact (expandListeners_panics_without_instance_port
             [http_listener "8080" "https"] portless
             [listener_config (http_listener "8081" "81")] Hlacks).
Defined.

Lemma expandStringList_plain_witness :
  plain ["sg-1"; "sg-2"]
  ∧ expandStringList (VString <$> ["sg-1"; "sg-2"]) = Returns ["sg-1"; "sg-2"].
Proof.
  assert (plain ["sg-1"; "sg-2"]) as Hplain by (intros s Hs; discriminate Hs).
  split; [exact Hplain|].
  exact (expandStringList_plain _ Hplain).
Defined.

Lemma expandStringList_of_joined_witness :
  ["i-1"; "i-2"] ≠ []
  ∧ Forall (λ s, Contains_comma s = false) ["i-1"; "i-2"]
  ∧ expandStringList [VString "i-1,i-2"] = Returns ["i-1"; "i-2"].
Proof.
  assert (["i-1"; "i-2"] ≠ []) as Hne by discriminate.
  assert (Forall (λ s, Contains_comma s = false) ["i-1"; "i-2"]) as Hl.
  { repeat (apply Forall_cons; split; [reflexivity|]). apply Forall_nil_2. }
  split_and!; [exact Hne|exact Hl|].
  exact (expandStringList_of_joined ["i-1"; "i-2"] Hne Hl).
Defined.


Definition ssh_rule : ec2.IPPerm :=
  {| ec2.Protocol := "tcp"; ec2.FromPort := 22; ec2.ToPort := 22;
     ec2.SourceIPs := ["10.0.0.0/8"; "192.168.0.0/16"];
     ec2.SourceGroups := [group_of_id "sg-1"] |}.

Lemma expandIPPerms_flattenIPPerms_witness :
  Forall tame [ssh_rule; perm "udp" 53 []]
  ∧ expandIPPerms ((λ n, VMap (retyped <$> n))
                     <$> flattenIPPerms [ssh_rule; perm "udp" 53 []])
    = Returns ([ssh_rule; perm "udp" 53 []], None).
Proof.
  assert (Forall tame [ssh_rule; perm "udp" 53 []]) as Htame.
  { apply Forall_cons; split; [|apply Forall_cons; split; [|apply Forall_nil_2]].
    - split_and!.
      + intros s Hs; discriminate Hs.
      + intros s Hs. injection Hs as <-. reflexivity.
      + apply Forall_cons; split; [by split|apply Forall_nil_2].
    - split_and!.
      + intros s Hs; discriminate Hs.
      + intros s Hs; discriminate Hs.
      + apply Forall_nil_2. }
  split; [exact Htame|].
  exact (expandIPPerms_flattenIPPerms _ Htame).
Defined.

(** A well-formed rule entry, one whose [from_port] is no number, and
    an entry that is no map at all and would make the loop panic. *)
Definition ssh_entry : value :=
  VMap {[ "from_port" := VString "22"; "to_port" := VString "22";
          "protocol" := VString "tcp" ]}.

Definition http_entry : gmap string value :=
  {[ "from_port" := VString "http"; "to_port" := VString "80";
     "protocol" := VString "tcp" ]}.

Lemma expandIPPerms_bad_from_port_witness :
  expandIPPerms [ssh_entry] = Returns ([perm "tcp" 22 []], None)
  ∧ index http_entry "from_port" = VString "http"
  ∧ (Atoi "http").2 = Some (NumError "ParseInt" "http" ErrSyntax)
  ∧ expandIPPerms ([ssh_entry] ++ VMap http_entry :: [VString "no map"])
    = Returns ([], Some (NumError "ParseInt" "http" ErrSyntax))
  ∧ expandIPPerms [ssh_entry; VString "no map"] = Panics BadTypeAssertion.
Proof.
  assert (expandIPPerms [ssh_entry] = Returns ([perm "tcp" 22 []], None))
    as Hbefore by (vm_compute; reflexivity).
  assert (index http_entry "from_port" = VString "http")
    as Hport by (vm_compute; reflexivity).
  assert ((Atoi "http").2 = Some (NumError "ParseInt" "http" ErrSyntax))
    as Herr by (vm_compute; reflexivity).
  split_and!; [exact Hbefore|exact Hport|exact Herr| |vm_compute; reflexivity].
  exact (expandIPPerms_bad_from_port [ssh_entry] [VString "no map"]
           http_entry [perm "tcp" 22 []] "http" _ Hbefore Hport Herr).
Defined.


(** Two rules for ssh that [canonicaliseIPPerms] merges, and one for
    DNS. *)
Definition ssh_and_dns : list ec2.IPPerm :=
  [ssh_rule;
   perm "udp" 53 ["10.0.0.0/8"];
   {| ec2.Protocol := "tcp"; ec2.FromPort := 22; ec2.ToPort := 22;
      ec2.SourceIPs := ["172.16.0.0/12"];
      ec2.SourceGroups := [group_of_id "sg-0"] |}].

Lemma canonicaliseIPPerms_twice_witness :
  ids_name_groups ssh_and_dns
  ∧ canonicaliseIPPerms reversing_sorter descending_ranger
      (canonicaliseIPPerms reversing_sorter ascending_ranger ssh_and_dns)
    ≡ₚ canonicaliseIPPerms reversing_sorter ascending_ranger ssh_and_dns.
Proof.
  assert (ids_name_groups ssh_and_dns) as Hids.
  { intros g g' Hg Hg' Hid.
    change (ssh_and_dns ≫= ec2.SourceGroups)
      with [group_of_id "sg-1"; group_of_id "sg-0"] in Hg, Hg'.
    apply elem_of_cons in Hg as [->|Hg], Hg' as [->|Hg'];
      try apply list_elem_of_singleton in Hg as ->;
      try apply list_elem_of_singleton in Hg' as ->;
      try reflexivity; discriminate Hid. }
  split; [exact Hids|].
  exact (canonicaliseIPPerms_twice reversing_sorter ascending_ranger
           descending_ranger ssh_and_dns Hids).
Defined.

(** Seven groups of one id: the two routines return them in different
    orders, and canonicalising a rule that holds them twice, with the
    routine that reverses ties, does not give the first result again. *)
Definition same_id_groups : list ec2.UserSecurityGroup :=
  (λ name, {| ec2.Id := "sg-1"; ec2.Name := name; ec2.OwnerId := "" |})
    <$> ["a"; "b"; "c"; "d"; "e"; "f"; "g"].

Example sort_Sort_leaves_ties_open :
  sorted_by insertion_sorter sortableGroups_Less same_id_groups
  = same_id_groups
  ∧ sorted_by reversing_sorter sortableGroups_Less same_id_groups
    = reverse same_id_groups
  ∧ ¬ canonicaliseIPPerms reversing_sorter ascending_ranger
        (canonicaliseIPPerms reversing_sorter ascending_ranger
           [{| ec2.Protocol := "tcp"; ec2.FromPort := 22; ec2.ToPort := 22;
               ec2.SourceIPs := []; ec2.SourceGroups := same_id_groups |}])
      ≡ₚ canonicaliseIPPerms reversing_sorter ascending_ranger
           [{| ec2.Protocol := "tcp"; ec2.FromPort := 22; ec2.ToPort := 22;
               ec2.SourceIPs := []; ec2.SourceGroups := same_id_groups |}].
Proof.
  split_and!; [vm_compute; reflexivity..|].
  set (rule := {| ec2.Protocol := "tcp"; ec2.FromPort := 22; ec2.ToPort := 22;
                  ec2.SourceIPs := []; ec2.SourceGroups := same_id_groups |}).
  assert (canonicaliseIPPerms reversing_sorter ascending_ranger [rule]
          = [{| ec2.Protocol := "tcp"; ec2.FromPort := 22; ec2.ToPort := 22;
                ec2.SourceIPs := [];
                ec2.SourceGroups := reverse same_id_groups |}])
    as -> by (vm_compute; reflexivity).
  assert (canonicaliseIPPerms reversing_sorter ascending_ranger
            [{| ec2.Protocol := "tcp"; ec2.FromPort := 22; ec2.ToPort := 22;
                ec2.SourceIPs := [];
                ec2.SourceGroups := reverse same_id_groups |}]
          = [rule]) as -> by (vm_compute; reflexivity).
  intros Hperm%Permutation_singleton_r. discriminate Hperm.
Qed.

End aws.

(** ** Package [config]: config/config.go *)
Module config.
Local Open Scope Z_scope.

(** The variables an interpolation can refer to.  [InterpolatedVariable]
    is an interface; [Validate] tells its implementations apart with the
    type assertions for [UserVariable] and [ResourceVariable] and reads
    the fields below ([FullKey] returns the key the variable was written
    with).  Any other implementation is an [OtherVariable]. *)
Inductive InterpolatedVariable : Type :=
  | UserVariable (Name : string) (key : string)
  | ResourceVariable (Type_ Name : string) (Multi : bool) (key : string)
  | OtherVariable (key : string).

Record RawConfig : Type := {
  Raw : gmap string value;
  rcVariables : gmap string InterpolatedVariable
}.

Record ProviderConfig : Type := {
  pcName : string;
  pcRawConfig : RawConfig
}.

Record Provisioner : Type := {
  prType : string;
  prRawConfig : RawConfig;
  prConnInfo : RawConfig
}.

Record Resource : Type := {
  rName : string;
  rType : string;
  Count : Z;
  rRawConfig : RawConfig;
  Provisioners : list Provisioner;
  DependsOn : list string
}.

Record Variable_ : Type := {
  vName : string;
  Default : value;
  Description : string
}.

Record Output : Type := {
  oName : string;
  oRawConfig : RawConfig
}.

Record Config : Type := {
  ProviderConfigs : list ProviderConfig;
  Resources : list Resource;
  cVariables : list Variable_;
  Outputs : list Output;
  unknownKeys : list string
}.

Inductive VariableType : Type :=
  | VariableTypeUnknown
  | VariableTypeString
  | VariableTypeMap.

(** [multierror.Error] *)
Record MultiError : Type := { Errors : list error }.

(** What [Validate] and [Variable.Type] call outside the repository's
    surfaced files: [mapstructure.WeakDecode] into a string and into a
    [map[string]string] ([None] when it returns an error), and
    [reflectwalk.Walk] with an [interpolationWalker] whose callback
    raises a flag: the flag, and the error of the walk. *)
Class Walkers : Type := {
  WeakDecode_string : value → option string;
  WeakDecode_map : value → option (gmap string string);
  Walk_interpolations : value → bool * option error
}.

Section validate.
Context `{W : Walkers}.

(** [Resource.Id] *)
Definition Id (r : Resource) : string := rType r +:+ "." +:+ rName r.

Definition with_Default (v : Variable_) (d : value) : Variable_ :=
  {| vName := vName v; Default := d; Description := Description v |}.

(** [Variable.Type], which also stores the decoded default. *)
Definition Type_of (v : Variable_) : VariableType * Variable_ :=
  match Default v with
  | VNil => (VariableTypeString, v)
  | d =>
      match WeakDecode_string d with
      | Some strVal => (VariableTypeString, with_Default v (VString strVal))
      | None =>
          match WeakDecode_map d with
          | Some m => (VariableTypeMap, with_Default v (VStringMap m))
          | None => (VariableTypeUnknown, v)
          end
      end
  end.

(** [result[source] = append(result[source], v)] *)
Definition note (source : string)
    (result : gmap string (list InterpolatedVariable))
    (v : InterpolatedVariable) : gmap string (list InterpolatedVariable) :=
  <[source := default [] (result !! source) ++ [v]]> result.

Definition note_all (rg : ranger) (source : string) (rc : RawConfig)
    (result : gmap string (list InterpolatedVariable))
    : gmap string (list InterpolatedVariable) :=
  foldl (λ result kv, note source result kv.2) result
        (visit rg (rcVariables rc)).

Definition allVariables (rg : ranger) (c : Config)
    : gmap string (list InterpolatedVariable) :=
  let result := ∅ in
  let result :=
    foldl (λ result pc,
             note_all rg ("provider config '" +:+ pcName pc +:+ "'")
               (pcRawConfig pc) result)
          result (ProviderConfigs c) in
  let result :=
    foldl (λ result rc,
             note_all rg ("resource '" +:+ Id rc +:+ "'") (rRawConfig rc)
               result)
          result (Resources c) in
  foldl (λ result o,
           note_all rg ("output '" +:+ oName o +:+ "'") (oRawConfig o) result)
        result (Outputs c).

(** The loops of [Validate], one step function per loop body. *)

Definition check_unknown_key (errs : list error) (k : string) : list error :=
  errs ++ ["Unknown root level key: " +:+ k].

Definition check_variable (errs : list error) (v : Variable_) : list error :=
  let '(t, v) := Type_of v in
  match t with
  | VariableTypeUnknown =>
      errs ++ ["Variable '" +:+ vName v +:+ "': must be string or mapping"]
  | _ =>
      let '(interp, err) := Walk_interpolations (Default v) in
      match err with
      | None =>
          if interp
          then errs ++ ["Variable '" +:+ vName v
                        +:+ "': cannot contain interpolations"]
          else errs
      | Some _ => errs
      end
  end.

Definition check_user_variable (varMap : gmap string Variable_)
    (source : string)
    (errs : list error) (v : InterpolatedVariable) : list error :=
  match v with
  | UserVariable name _ =>
      match varMap !! name with
      | None => errs ++ [source +:+ ": unknown variable referenced: " +:+ name]
      | Some _ => errs
      end
  | _ => errs
  end.

Definition registry : Type := gmap string Resource * gset string * list error.

Definition register (st : registry) (r : Resource) : registry :=
  let '(resources, dupped, errs) := st in
  let '(dupped, errs) :=
    match resources !! Id r with
    | Some _ =>
        if decide (Id r ∈ dupped) then (dupped, errs)
        else ({[ Id r ]} ∪ dupped,
              errs ++ [Id r +:+ ": resource repeated multiple times"])
    | None => (dupped, errs)
    end in
  (<[Id r := r]> resources, dupped, errs).

Definition check_depends_on (resources : gmap string Resource) (n : string)
    (errs : list error) (d : string) : list error :=
  match resources !! d with
  | None =>
      errs ++ [n +:+ ": resource depends on non-existent resource '"
               +:+ d +:+ "'"]
  | Some _ => errs
  end.

Definition check_resource (resources : gmap string Resource)
    (errs : list error) (nr : string * Resource) : list error :=
  let '(n, r) := nr in
  let errs :=
    if Count r <? 1
    then errs ++ [n +:+ ": count must be greater than or equal to 1"]
    else errs in
  foldl (check_depends_on resources n) errs (DependsOn r).

Definition check_resource_variable (resources : gmap string Resource)
    (source : string) (errs : list error) (v : InterpolatedVariable)
    : list error :=
  match v with
  | ResourceVariable type name multi key =>
      let id := type +:+ "." +:+ name in
      match resources !! id with
      | None =>
          errs ++ [source +:+ ": unknown resource '" +:+ id
                   +:+ "' referenced in variable " +:+ key]
      | Some r =>
          if (1 <? Count r) && negb multi
          then errs ++ [source +:+ ": variable '" +:+ key
                        +:+ "' must specify index for multi-count "
                        +:+ "resource " +:+ id]
          else errs
      end
  | _ => errs
  end.

Definition check_output (rg : ranger) (errs : list error) (o : Output)
    : list error :=
  let invalid :=
    existsb (λ kv, negb (String.eqb kv.1 "value"))
            (visit rg (Raw (oRawConfig o))) in
  if invalid
  then errs ++ [oName o +:+ ": output should only have 'value' field"]
  else errs.

(** The errors [Validate] has gathered when it reaches its last test.
    One iteration order serves every loop over a map; the order only
    decides where in the list an error stands. *)
Definition Validate_errs (rg : ranger) (c : Config) : list error :=
  let errs := [] in
  let errs := foldl check_unknown_key errs (unknownKeys c) in
  let vars := allVariables rg c in
  let varMap := foldl (λ varMap v, <[vName v := v]> varMap) ∅ (cVariables c) in
  let errs := foldl check_variable errs (cVariables c) in
  let errs :=
    foldl (λ errs svs, foldl (check_user_variable varMap svs.1) errs svs.2)
          errs (visit rg vars) in
  let '(resources, _, errs) := foldl register (∅, ∅, errs) (Resources c) in
  let errs := foldl (check_resource resources) errs (visit rg resources) in
  let errs :=
    foldl (λ errs svs,
             foldl (check_resource_variable resources svs.1) errs svs.2)
          errs (visit rg vars) in
  foldl (check_output rg) errs (Outputs c).

Definition Validate (rg : ranger) (c : Config) : option MultiError :=
  let errs := Validate_errs rg c in
  if (0 <? length errs)%nat then Some {| Errors := errs |} else None.

Definition reported (result : option MultiError) : list error :=
  from_option Errors [] result.

(** *** The violations, read off the configuration

    [refers c source v]: the raw configuration of the provider
    configuration, resource or output that [source] names holds the
    variable [v]. *)
Inductive refers (c : Config) : string → InterpolatedVariable → Prop :=
  | refers_provider pc k v :
      pc ∈ ProviderConfigs c →
      rcVariables (pcRawConfig pc) !! k = Some v →
      refers c ("provider config '" +:+ pcName pc +:+ "'") v
  | refers_resource r k v :
      r ∈ Resources c →
      rcVariables (rRawConfig r) !! k = Some v →
      refers c ("resource '" +:+ Id r +:+ "'") v
  | refers_output o k v :
      o ∈ Outputs c →
      rcVariables (oRawConfig o) !! k = Some v →
      refers c ("output '" +:+ oName o +:+ "'") v.

(** The resources declared under an id, in the order of the
    configuration; how many there are; and the one that stands for the
    id, which is the last. *)
Definition declared (c : Config) (id : string) : list Resource :=
  filter (λ r, Id r = id) (Resources c).

Definition occurrences (c : Config) (id : string) : nat :=
  length (declared c id).

Definition effective (c : Config) (id : string) : option Resource :=
  last (declared c id).

(** [violation c e]: the configuration has a violation whose message is
    [e]. *)
Inductive violation (c : Config) : error → Prop :=
  | unknown_root_key k :
      k ∈ unknownKeys c →
      violation c ("Unknown root level key: " +:+ k)
  | variable_of_unknown_type v :
      v ∈ cVariables c →
      (Type_of v).1 = VariableTypeUnknown →
      violation c ("Variable '" +:+ vName v +:+ "': must be string or mapping")
  | variable_with_interpolation v :
      v ∈ cVariables c →
      (Type_of v).1 ≠ VariableTypeUnknown →
      Walk_interpolations (Default (Type_of v).2) = (true, None) →
      violation c ("Variable '" +:+ vName v
                   +:+ "': cannot contain interpolations")
  | unknown_variable source name key :
      refers c source (UserVariable name key) →
      (∀ v, v ∈ cVariables c → vName v ≠ name) →
      violation c (source +:+ ": unknown variable referenced: " +:+ name)
  | repeated_resource id :
      (2 ≤ occurrences c id)%nat →
      violation c (id +:+ ": resource repeated multiple times")
  | count_below_one id r :
      effective c id = Some r →
      Count r < 1 →
      violation c (id +:+ ": count must be greater than or equal to 1")
  | missing_dependency id r d :
      effective c id = Some r →
      d ∈ DependsOn r →
      effective c d = None →
      violation c (id +:+ ": resource depends on non-existent resource '"
                   +:+ d +:+ "'")
  | unknown_resource source type name multi key :
      refers c source (ResourceVariable type name multi key) →
      effective c (type +:+ "." +:+ name) = None →
      violation c (source +:+ ": unknown resource '" +:+ (type +:+ "." +:+ name)
                   +:+ "' referenced in variable " +:+ key)
  | missing_index source type name key r :
      refers c source (ResourceVariable type name false key) →
      effective c (type +:+ "." +:+ name) = Some r →
      1 < Count r →
      violation c (source +:+ ": variable '" +:+ key
                   +:+ "' must specify index for multi-count "
                   +:+ "resource " +:+ (type +:+ "." +:+ name))
  | invalid_output o k :
      o ∈ Outputs c →
      is_Some (Raw (oRawConfig o) !! k) →
      k ≠ "value" →
      violation c (oName o +:+ ": output should only have 'value' field").

End validate.

(** *** A configuration to run [Validate] on *)

Fixpoint has_interpolation (s : string) : bool :=
  match s with
  | String "$"%char (String "{"%char _) => true
  | String _ rest => has_interpolation rest
  | EmptyString => false
  end.

Definition as_string (v : value) : option string :=
  match v with
  | VString s => Some s
  | _ => None
  end.

(** Decoders for strings and maps of strings, and a walk that looks for
    an opening interpolation mark. *)
Definition plain_Walkers : Walkers :=
  {| WeakDecode_string := as_string;
     WeakDecode_map := λ v,
       match v with
       | VStringMap m => Some m
       | VMap m =>
           let strs := omap as_string m in
           if (size strs =? size m)%nat then Some strs else None
       | _ => None
       end;
     Walk_interpolations := λ v,
       match v with
       | VString s => (has_interpolation s, None)
       | VStringMap m => (existsb has_interpolation (map_to_list m).*2, None)
       | _ => (false, None)
       end |}.

Definition no_raw : RawConfig := {| Raw := ∅; rcVariables := ∅ |}.

Definition web (count : Z) : Resource :=
  {| rName := "web"; rType := "aws_instance"; Count := count;
     rRawConfig := no_raw; Provisioners := []; DependsOn := [] |}.

(** The resource aws_instance.web declared twice, first with count 0. *)
Definition web_twice : Config :=
  {| ProviderConfigs := []; Resources := [web 0; web 1]; cVariables := [];
     Outputs := []; unknownKeys := [] |}.

(** *** Properties of [Validate] *)
Section validate_facts.
Context `{W : Walkers}.
Implicit Types (c : Config) (e : error) (errs : list error).

(** A loop body emits: it leaves the errors gathered so far in place and
    appends what it finds. *)
Definition emits {X} (step : list error → X → list error) : Prop :=
  ∀ errs x, step errs x = errs ++ step [] x.

Lemma foldl_emits {X} (step : list error → X → list error) (l : list X) errs :
  emits step → foldl step errs l = errs ++ foldl step [] l.
Proof.
  intros Hstep. revert errs. induction l as [|x l IH]; intros errs; simpl.
  - by rewrite app_nil_r.
  - rewrite (IH (step errs x)), (IH (step [] x)), (Hstep errs x).
    by rewrite app_assoc.
Qed.

Lemma elem_of_foldl_emits {X} (step : list error → X → list error)
    (l : list X) e :
  emits step → e ∈ foldl step [] l ↔ ∃ x, x ∈ l ∧ e ∈ step [] x.
Proof.
  intros Hstep. induction l as [|x l IH]; simpl.
  - rewrite elem_of_nil. split; [done|]. by intros (x & ?%elem_of_nil & _).
  - rewrite (foldl_emits step l (step [] x) Hstep), elem_of_app, IH. split.
    + intros [He|(y & Hy & He)]; [exists x|exists y];
        rewrite elem_of_cons; auto.
    + intros (y & [->|Hy]%elem_of_cons & He); [by left|right; eauto].
Qed.

Lemma emits_nested {X Y} (inner : X → list error → Y → list error)
    (key : X * list Y → X) :
  (∀ x, emits (inner x)) →
  emits (λ errs (xs : X * list Y), foldl (inner (key xs)) errs xs.2).
Proof. intros Hin errs xs. by apply foldl_emits. Qed.

Lemma check_unknown_key_emits : emits check_unknown_key.
Proof. done. Qed.

Lemma check_variable_emits : emits check_variable.
Proof.
  intros errs v. unfold check_variable.
  destruct (Type_of v) as [[] v']; [done| |];
    destruct (Walk_interpolations (Default v')) as [[] []];
    by rewrite ?app_nil_r.
Qed.

Lemma check_user_variable_emits varMap source :
  emits (check_user_variable varMap source).
Proof.
  intros errs [name key| |]; simpl; rewrite ?app_nil_r; [|done..].
  destruct (varMap !! name); by rewrite ?app_nil_r.
Qed.

Lemma check_depends_on_emits resources n :
  emits (check_depends_on resources n).
Proof.
  intros errs d. unfold check_depends_on.
  destruct (resources !! d); by rewrite ?app_nil_r.
Qed.

Lemma check_resource_emits resources : emits (check_resource resources).
Proof.
  intros errs [n r]. unfold check_resource.
  rewrite (foldl_emits _ _ _ (check_depends_on_emits resources n)).
  rewrite (foldl_emits _ _ (if Count r <? 1 then _ else [])
             (check_depends_on_emits resources n)).
  destruct (Count r <? 1); simpl; by rewrite <- ?app_assoc.
Qed.

Lemma check_resource_variable_emits resources source :
  emits (check_resource_variable resources source).
Proof.
  intros errs [|type name multi key|]; simpl; rewrite ?app_nil_r; [done| |done].
  destruct (resources !! (type +:+ "." +:+ name)) as [r|];
    [|by rewrite ?app_nil_r].
  destruct ((1 <? Count r) && negb multi); by rewrite ?app_nil_r.
Qed.

Lemma check_output_emits rg : emits (check_output rg).
Proof.
  intros errs o. unfold check_output.
  destruct (existsb _ _); by rewrite ?app_nil_r.
Qed.

(** The registration loop, from an empty registry. *)
Definition registered (l : list Resource) : registry :=
  foldl register (∅, ∅, []) l.

Lemma register_emits (l : list Resource) resources dupped errs :
  foldl register (resources, dupped, errs) l
  = let '(resources', dupped', errs') :=
      foldl register (resources, dupped, []) l in
    (resources', dupped', errs ++ errs').
Proof.
  revert resources dupped errs.
  induction l as [|r l IH]; intros resources dupped errs; simpl.
  - by rewrite app_nil_r.
  - destruct (resources !! Id r) as [r0|].
    + destruct (decide (Id r ∈ dupped)); [apply IH|].
      rewrite (IH _ _ (errs ++ _)), (IH _ _ [_]).
      destruct (foldl register _ l) as [[resources' dupped'] errs'].
      by rewrite app_assoc.
    + apply IH.
Qed.

(** [Validate_errs] as the concatenation of what its loops emit. *)
Lemma Validate_errs_stages rg c :
  let vars := allVariables rg c in
  let varMap := foldl (λ varMap v, <[vName v := v]> varMap) ∅ (cVariables c) in
  let resources := (registered (Resources c)).1.1 in
  Validate_errs rg c
  = foldl check_unknown_key [] (unknownKeys c)
    ++ foldl check_variable [] (cVariables c)
    ++ foldl (λ errs svs, foldl (check_user_variable varMap svs.1) errs svs.2)
             [] (visit rg vars)
    ++ (registered (Resources c)).2
    ++ foldl (check_resource resources) [] (visit rg resources)
    ++ foldl (λ errs svs,
                foldl (check_resource_variable resources svs.1) errs svs.2)
             [] (visit rg vars)
    ++ foldl (check_output rg) [] (Outputs c).
Proof.
  intros vars varMap resources. unfold Validate_errs.
  fold vars. fold varMap.
  rewrite register_emits. unfold resources, registered.
  destruct (foldl register (∅, ∅, []) (Resources c))
    as [[resources' dupped'] errs'] eqn:Hreg. simpl.
  rewrite (foldl_emits _ (Outputs c) _ (check_output_emits rg)).
  rewrite (foldl_emits
             (λ errs svs,
                foldl (check_resource_variable resources' svs.1) errs svs.2)
             (visit rg vars) _
             (emits_nested _ fst (check_resource_variable_emits resources'))).
  rewrite (foldl_emits _ (visit rg resources') _
             (check_resource_emits resources')).
  rewrite (foldl_emits
             (λ errs svs, foldl (check_user_variable varMap svs.1) errs svs.2)
             (visit rg vars) _
             (emits_nested _ fst (check_user_variable_emits varMap))).
  rewrite (foldl_emits _ (cVariables c) _ check_variable_emits).
  by rewrite <- !app_assoc.
Qed.

(** What the registration loop leaves behind: under each id the last
    resource declared with it, in [dupped] the ids declared twice or
    more, and one error for each of those. *)
Lemma registered_spec (l : list Resource) :
  (∀ id, (registered l).1.1 !! id = last (filter (λ r, Id r = id) l))
  ∧ (∀ id, id ∈ (registered l).1.2
           ↔ (2 ≤ length (filter (λ r, Id r = id) l))%nat)
  ∧ (∀ e, e ∈ (registered l).2
          ↔ ∃ id, id ∈ (registered l).1.2
                  ∧ e = id +:+ ": resource repeated multiple times").
Proof.
  induction l as [|r l IH] using rev_ind.
  - split_and!; intros x; simpl.
    + done.
    + split; [set_solver|lia].
    + rewrite elem_of_nil. split; [done|]. intros (id & Hid & _). set_solver.
  - unfold registered in *. rewrite foldl_snoc.
    destruct (foldl register (∅, ∅, []) l) as [[resources dupped] errs].
    simpl in IH. destruct IH as (Hres & Hdup & Herrs).
    assert (∀ id, filter (λ r', Id r' = id) (l ++ [r])
                  = filter (λ r', Id r' = id) l
                    ++ if decide (Id r = id) then [r] else []) as Hfilter.
    { intros id. by rewrite filter_app, (filter_singleton _ r []). }
    assert (is_Some (resources !! Id r)
            ↔ (1 ≤ length (filter (λ r', Id r' = Id r) l))%nat) as Hseen.
    { rewrite Hres, last_is_Some.
      destruct (filter (λ r', Id r' = Id r) l); simpl; split;
        (done || lia). }
    assert (∀ id, (2 ≤ length (filter (λ r', Id r' = id) (l ++ [r])))%nat
                  ↔ (2 ≤ length (filter (λ r', Id r' = id) l))%nat
                    ∨ (id = Id r ∧ is_Some (resources !! Id r))) as Htwice.
    { intros id. rewrite Hfilter, length_app, Hseen.
      destruct (decide (Id r = id)) as [<-|Hne]; simpl.
      - split; [intros ?; right; split; [done|lia]|intros [?|[_ ?]]; lia].
      - split; [lia|]. intros [?|[? _]]; [lia|congruence]. }
    unfold register.
    destruct (resources !! Id r) as [r0|] eqn:Hlook; simpl;
      [destruct (decide (Id r ∈ dupped)) as [Hin|Hnotin]; simpl|].
    all: split_and!.
    all: try (intros id; rewrite Hfilter, lookup_insert;
              destruct (decide (Id r = id)) as [<-|Hne];
              [by rewrite last_snoc|by rewrite app_nil_r]).
    + intros id. rewrite Htwice, <- Hdup. split; [auto|].
      intros [?|[-> _]]; done.
    + done.
    + intros id. rewrite Htwice, <- Hdup, elem_of_union, elem_of_singleton.
      split; [intros [->|?]; eauto|]. intros [?|[-> _]]; auto.
    + intros e. rewrite elem_of_app, list_elem_of_singleton, Herrs. split.
      * intros [(id & Hid & ->)| ->]; [exists id|exists (Id r)];
          (split; [set_solver|done]).
      * intros (id & [->%elem_of_singleton|Hid]%elem_of_union & ->);
          [by right|left; eauto].
    + intros id. rewrite Htwice, <- Hdup. split; [auto|].
      intros [?|[_ [? ?]]]; done.
    + done.
Qed.

Lemma registered_lookup c id :
  (registered (Resources c)).1.1 !! id = effective c id.
Proof. apply registered_spec. Qed.

Lemma registered_errs c e :
  e ∈ (registered (Resources c)).2
  ↔ ∃ id, (2 ≤ occurrences c id)%nat
          ∧ e = id +:+ ": resource repeated multiple times".
Proof.
  destruct (registered_spec (Resources c)) as (_ & Hdup & Herrs).
  rewrite Herrs. by setoid_rewrite Hdup.
Qed.

(** The variables [allVariables] has filed under a source. *)
Definition filed (result : gmap string (list InterpolatedVariable))
    (source : string) (v : InterpolatedVariable) : Prop :=
  ∃ vs, result !! source = Some vs ∧ v ∈ vs.

Lemma note_filed source result v s v' :
  filed (note source result v) s v'
  ↔ filed result s v' ∨ (s = source ∧ v' = v).
Proof.
  unfold filed, note. destruct (decide (source = s)) as [->|Hne].
  - rewrite lookup_insert_eq. split.
    + intros (vs & [= <-] & [Hin| ->%list_elem_of_singleton]%elem_of_app);
        [left|by right].
      destruct (result !! s) as [vs|] eqn:Hs; simpl in *; [eauto|].
      by apply elem_of_nil in Hin.
    + intros [(vs & Hvs & Hin)|[_ ->]]; eexists; (split; [done|]);
        rewrite elem_of_app.
      * left. by rewrite Hvs.
      * right. by apply list_elem_of_singleton.
  - rewrite lookup_insert_ne by done. split; [auto|].
    intros [?|[-> _]]; done.
Qed.

Lemma note_all_filed rg source rc result s v :
  filed (note_all rg source rc result) s v
  ↔ filed result s v ∨ (s = source ∧ ∃ k, rcVariables rc !! k = Some v).
Proof.
  unfold note_all.
  assert (∀ (l : list (string * InterpolatedVariable)) result,
            filed (foldl (λ result kv, note source result kv.2) result l) s v
            ↔ filed result s v ∨ (s = source ∧ ∃ kv, kv ∈ l ∧ kv.2 = v))
    as Hloop.
  { clear result. induction l as [|kv l IH]; intros result; simpl.
    - split; [auto|]. intros [?|(_ & kv & ?%elem_of_nil & _)]; done.
    - rewrite IH, note_filed. setoid_rewrite elem_of_cons. naive_solver. }
  rewrite Hloop. split; (intros [?|[-> Hex]]; [by left|right; split; [done|]]).
  - destruct Hex as ([k v'] & Hin & <-). exists k.
    by apply visit_elem_of in Hin.
  - destruct Hex as (k & Hk). exists (k, v). split; [|done].
    by apply visit_elem_of.
Qed.

Lemma note_each_filed {X} rg (source : X → string) (raw : X → RawConfig)
    (l : list X) result s v :
  filed (foldl (λ result x, note_all rg (source x) (raw x) result) result l) s v
  ↔ filed result s v
    ∨ ∃ x k, x ∈ l ∧ s = source x ∧ rcVariables (raw x) !! k = Some v.
Proof.
  revert result. induction l as [|x l IH]; intros result; simpl.
  - split; [auto|]. intros [?|(x & k & ?%elem_of_nil & _)]; done.
  - rewrite IH, note_all_filed. setoid_rewrite elem_of_cons. naive_solver.
Qed.

Lemma allVariables_filed rg c s v :
  filed (allVariables rg c) s v ↔ refers c s v.
Proof.
  unfold allVariables. rewrite !note_each_filed. split.
  - intros [[[(vs & Hvs & _)|(pc & k & Hpc & -> & Hk)]
            |(r & k & Hr & -> & Hk)]|(o & k & Ho & -> & Hk)].
    + by rewrite lookup_empty in Hvs.
    + by eapply refers_provider.
    + by eapply refers_resource.
    + by eapply refers_output.
  - intros [pc k v' Hpc Hk|r k v' Hr Hk|o k v' Ho Hk]; naive_solver.
Qed.

Lemma varMap_lookup_None (l : list Variable_) (m : gmap string Variable_) name :
  foldl (λ varMap v, <[vName v := v]> varMap) m l !! name = None
  ↔ m !! name = None ∧ ∀ v, v ∈ l → vName v ≠ name.
Proof.
  revert m. induction l as [|v l IH]; intros m; simpl.
  - split; [|by intros [? _]]. intros ?. split; [done|].
    by intros v ?%elem_of_nil.
  - rewrite IH, lookup_insert_None. setoid_rewrite elem_of_cons. naive_solver.
Qed.

Lemma existsb_elem_of {X} (f : X → bool) (l : list X) :
  existsb f l = true ↔ ∃ x, x ∈ l ∧ f x = true.
Proof.
  induction l as [|y l IH]; simpl.
  - split; [done|]. by intros (x & ?%elem_of_nil & _).
  - rewrite orb_true_iff, IH. setoid_rewrite elem_of_cons. naive_solver.
Qed.

Lemma Type_of_vName (v : Variable_) : vName (Type_of v).2 = vName v.
Proof.
  unfold Type_of. destruct (Default v); try done;
    (destruct (WeakDecode_string _); [done|]);
    by destruct (WeakDecode_map _).
Qed.

(** What each loop of [Validate] emits. *)

Lemma emitted_unknown_keys c e :
  e ∈ foldl check_unknown_key [] (unknownKeys c)
  ↔ ∃ k, k ∈ unknownKeys c ∧ e = "Unknown root level key: " +:+ k.
Proof.
  rewrite (elem_of_foldl_emits _ _ _ check_unknown_key_emits).
  unfold check_unknown_key. simpl.
  by setoid_rewrite list_elem_of_singleton.
Qed.

Lemma emitted_variable (v : Variable_) e :
  e ∈ check_variable [] v
  ↔ ((Type_of v).1 = VariableTypeUnknown
     ∧ e = "Variable '" +:+ vName v +:+ "': must be string or mapping")
    ∨ ((Type_of v).1 ≠ VariableTypeUnknown
       ∧ Walk_interpolations (Default (Type_of v).2) = (true, None)
       ∧ e = "Variable '" +:+ vName v +:+ "': cannot contain interpolations").
Proof.
  unfold check_variable. rewrite <- (Type_of_vName v).
  destruct (Type_of v) as [t v']. simpl.
  destruct t; simpl.
  - rewrite list_elem_of_singleton. naive_solver.
  - destruct (Walk_interpolations (Default v')) as [[] []]; simpl;
      rewrite ?list_elem_of_singleton, ?elem_of_nil; naive_solver.
  - destruct (Walk_interpolations (Default v')) as [[] []]; simpl;
      rewrite ?list_elem_of_singleton, ?elem_of_nil; naive_solver.
Qed.

Lemma emitted_per_reference rg c
    (check : string → list error → InterpolatedVariable → list error) e :
  (∀ source, emits (check source)) →
  e ∈ foldl (λ errs svs, foldl (check svs.1) errs svs.2) []
        (visit rg (allVariables rg c))
  ↔ ∃ source v, refers c source v ∧ e ∈ check source [] v.
Proof.
  intros Hcheck.
  rewrite (elem_of_foldl_emits _ _ _ (emits_nested check fst Hcheck)).
  split.
  - intros ([source vs] & Hin & He). simpl in He.
    apply (elem_of_foldl_emits _ _ _ (Hcheck source)) in He as (v & Hv & He).
    exists source, v. split; [|done].
    apply (allVariables_filed rg). exists vs. split; [|done].
    by apply visit_elem_of in Hin.
  - intros (source & v & (vs & Hvs & Hv)%(allVariables_filed rg) & He).
    exists (source, vs). split; [by apply visit_elem_of|]. simpl.
    apply (elem_of_foldl_emits _ _ _ (Hcheck source)). eauto.
Qed.

Lemma emitted_user_variables rg c e :
  let varMap := foldl (λ varMap v, <[vName v := v]> varMap) ∅ (cVariables c) in
  e ∈ foldl (λ errs svs, foldl (check_user_variable varMap svs.1) errs svs.2)
        [] (visit rg (allVariables rg c))
  ↔ ∃ source name key,
      refers c source (UserVariable name key)
      ∧ (∀ v, v ∈ cVariables c → vName v ≠ name)
      ∧ e = source +:+ ": unknown variable referenced: " +:+ name.
Proof.
  intros varMap.
  rewrite (emitted_per_reference rg c (check_user_variable varMap) e
             (check_user_variable_emits varMap)).
  assert (∀ name, varMap !! name = None
                  ↔ ∀ v, v ∈ cVariables c → vName v ≠ name) as Hmap.
  { intros name. unfold varMap. rewrite varMap_lookup_None, lookup_empty.
    naive_solver. }
  split.
  - intros (source & [name key| |] & Href & He); simpl in He;
      try by apply elem_of_nil in He.
    destruct (varMap !! name) eqn:Hlook; [by apply elem_of_nil in He|].
    apply list_elem_of_singleton in He. exists source, name, key.
    by rewrite <- Hmap.
  - intros (source & name & key & Href & Hnone & ->).
    exists source, (UserVariable name key). split; [done|]. simpl.
    apply Hmap in Hnone. rewrite Hnone. by apply list_elem_of_singleton.
Qed.

Lemma emitted_resource (resources : gmap string Resource) n r e :
  e ∈ check_resource resources [] (n, r)
  ↔ (Count r < 1 ∧ e = n +:+ ": count must be greater than or equal to 1")
    ∨ ∃ d, d ∈ DependsOn r ∧ resources !! d = None
           ∧ e = n +:+ ": resource depends on non-existent resource '"
                 +:+ d +:+ "'".
Proof.
  unfold check_resource.
  rewrite (foldl_emits _ _ _ (check_depends_on_emits resources n)).
  rewrite elem_of_app.
  rewrite (elem_of_foldl_emits _ _ _ (check_depends_on_emits resources n)).
  assert (e ∈ (if Count r <? 1
               then [] ++ [n +:+ ": count must be greater than or equal to 1"]
               else [])
          ↔ Count r < 1
            ∧ e = n +:+ ": count must be greater than or equal to 1") as ->.
  { destruct (Z.ltb_spec (Count r) 1); simpl;
      rewrite ?list_elem_of_singleton, ?elem_of_nil; [naive_solver|].
    split; [done|]. intros [? _]. lia. }
  assert (∀ d, e ∈ check_depends_on resources n [] d
               ↔ resources !! d = None
                 ∧ e = n +:+ ": resource depends on non-existent resource '"
                       +:+ d +:+ "'") as Hdep.
  { intros d. unfold check_depends_on.
    destruct (resources !! d); simpl;
      rewrite ?list_elem_of_singleton, ?elem_of_nil; naive_solver. }
  setoid_rewrite Hdep. naive_solver.
Qed.

Lemma emitted_resources rg c e :
  let resources := (registered (Resources c)).1.1 in
  e ∈ foldl (check_resource resources) [] (visit rg resources)
  ↔ ∃ id r,
      effective c id = Some r
      ∧ ((Count r < 1
          ∧ e = id +:+ ": count must be greater than or equal to 1")
         ∨ ∃ d, d ∈ DependsOn r ∧ effective c d = None
                ∧ e = id +:+ ": resource depends on non-existent resource '"
                      +:+ d +:+ "'").
Proof.
  intros resources.
  rewrite (elem_of_foldl_emits _ _ _ (check_resource_emits resources)).
  split.
  - intros ([id r] & Hin & He). exists id, r.
    apply visit_elem_of in Hin. unfold resources in Hin.
    rewrite registered_lookup in Hin. split; [done|].
    apply emitted_resource in He.
    unfold resources in He. by setoid_rewrite registered_lookup in He.
  - intros (id & r & Heff & He). exists (id, r). split.
    + apply visit_elem_of. unfold resources. by rewrite registered_lookup.
    + apply emitted_resource. unfold resources.
      by setoid_rewrite registered_lookup.
Qed.

Lemma emitted_resource_variables rg c e :
  let resources := (registered (Resources c)).1.1 in
  e ∈ foldl (λ errs svs,
               foldl (check_resource_variable resources svs.1) errs svs.2)
        [] (visit rg (allVariables rg c))
  ↔ ∃ source type name multi key,
      refers c source (ResourceVariable type name multi key)
      ∧ ((effective c (type +:+ "." +:+ name) = None
          ∧ e = source +:+ ": unknown resource '" +:+ (type +:+ "." +:+ name)
                +:+ "' referenced in variable " +:+ key)
         ∨ ∃ r, effective c (type +:+ "." +:+ name) = Some r
                ∧ 1 < Count r ∧ multi = false
                ∧ e = source +:+ ": variable '" +:+ key
                      +:+ "' must specify index for multi-count "
                      +:+ "resource " +:+ (type +:+ "." +:+ name)).
Proof.
  intros resources.
  rewrite (emitted_per_reference rg c (check_resource_variable resources) e
             (check_resource_variable_emits resources)).
  split.
  - intros (source & [|type name multi key|] & Href & He); simpl in He;
      try by apply elem_of_nil in He.
    exists source, type, name, multi, key. split; [done|].
    unfold resources in He. rewrite registered_lookup in He.
    destruct (effective c (type +:+ "." +:+ name)) as [r|].
    + right. exists r.
      destruct (Z.ltb_spec 1 (Count r)), multi; simpl in He;
        rewrite ?list_elem_of_singleton, ?elem_of_nil in He; done.
    + left. by apply list_elem_of_singleton in He.
  - intros (source & type & name & multi & key & Href & He).
    exists source, (ResourceVariable type name multi key). split; [done|].
    simpl. unfold resources. rewrite registered_lookup.
    destruct He as [[-> ->]|(r & -> & Hcount & -> & ->)].
    + by apply list_elem_of_singleton.
    + destruct (Z.ltb_spec 1 (Count r)); [|lia]. simpl.
      by apply list_elem_of_singleton.
Qed.

Lemma emitted_outputs rg c e :
  e ∈ foldl (check_output rg) [] (Outputs c)
  ↔ ∃ o, o ∈ Outputs c
         ∧ (∃ k, is_Some (Raw (oRawConfig o) !! k) ∧ k ≠ "value")
         ∧ e = oName o +:+ ": output should only have 'value' field".
Proof.
  rewrite (elem_of_foldl_emits _ _ _ (check_output_emits rg)).
  apply exist_proper. intros o. apply and_iff_compat_l.
  unfold check_output.
  assert (existsb (λ kv, negb (String.eqb kv.1 "value"))
            (visit rg (Raw (oRawConfig o))) = true
          ↔ ∃ k, is_Some (Raw (oRawConfig o) !! k) ∧ k ≠ "value") as Hex.
  { rewrite existsb_elem_of. split.
    - intros ([k v] & Hin%visit_elem_of & Hk). exists k. split; [by exists v|].
      simpl in Hk. apply negb_true_iff in Hk. by apply String.eqb_neq.
    - intros (k & [v Hv] & Hk). exists (k, v). split; [by apply visit_elem_of|].
      simpl. apply negb_true_iff. by apply String.eqb_neq. }
  destruct (existsb _ _); simpl;
    rewrite ?list_elem_of_singleton, ?elem_of_nil.
  - assert (true = true) as Ht by done. apply Hex in Ht. naive_solver.
  - split; [done|]. intros [Hk _]. apply Hex in Hk. done.
Qed.

Lemma reported_Validate rg c : reported (Validate rg c) = Validate_errs rg c.
Proof. unfold Validate. by destruct (Validate_errs rg c). Qed.

Lemma Validate_errs_violation rg c e :
  e ∈ Validate_errs rg c ↔ violation c e.
Proof.
  rewrite Validate_errs_stages. cbv zeta. rewrite !elem_of_app.
  rewrite emitted_unknown_keys, emitted_user_variables, registered_errs,
    emitted_resources, emitted_resource_variables, emitted_outputs.
  rewrite (elem_of_foldl_emits _ _ _ check_variable_emits).
  setoid_rewrite emitted_variable.
  split.
  - intros [(k & Hk & ->)
           |[(v & Hv & [[Ht ->]|(Ht & Hw & ->)])
            |[(source & name & key & Href & Hnone & ->)
             |[(id & Hid & ->)
              |[(id & r & Heff & [[Hcount ->]|(d & Hd & Hnone & ->)])
               |[(source & type & name & multi & key & Href
                  & [[Hnone ->]|(r & Heff & Hcount & -> & ->)])
                |(o & Ho & (k & Hk & Hne) & ->)]]]]]].
    + by constructor.
    + by constructor.
    + by constructor.
    + by econstructor.
    + by constructor.
    + by econstructor.
    + by econstructor.
    + by econstructor.
    + by econstructor.
    + by econstructor.
  - intros [k Hk|v Hv Ht|v Hv Ht Hw|source name key Href Hnone|id Hid
           |id r Heff Hcount|id r d Heff Hd Hnone
           |source type name multi key Href Hnone
           |source type name key r Href Heff Hcount|o k Ho Hk Hne].
    + left. eauto.
    + right; left. eauto.
    + right; left. eauto 10.
    + right; right; left. eauto 10.
    + right; right; right; left. eauto.
    + do 4 right; left. eauto 10.
    + do 4 right; left. eauto 10.
    + do 5 right; left. eauto 15.
    + do 5 right; left. exists source, type, name, false, key. eauto 10.
    + do 6 right. eauto 10.
Qed.


End validate_facts.


(** *** The rest of config.go *)

(** [ProviderConfigName]; [strings.HasPrefix(t, k)] is [String.prefix k t]
    and [len] counts bytes. *)
Definition ProviderConfigName (t : string) (pcs : list ProviderConfig)
    : string :=
  foldl (λ lk v,
           let k := pcName v in
           if String.prefix k t && (String.length lk <? String.length k)%nat
           then k else lk)
        "" pcs.

(** [Variable.Merge] and [Variable.Required] *)
Definition Merge (v v2 : Variable_) : Variable_ :=
  let result := v in
  let result := {| vName := vName v2; Default := Default result;
                   Description := Description result |} in
  let result :=
    match Default v2 with
    | VNil => result
    | d => {| vName := vName result; Default := d;
              Description := Description result |}
    end in
  if bool_decide (Description v2 ≠ "")
  then {| vName := vName result; Default := Default result;
          Description := Description v2 |}
  else result.

Definition Required (v : Variable_) : bool :=
  match Default v with
  | VNil => true
  | _ => false
  end.

(** The [merger] interface and its four implementations.  The method
    [merge] of [RawConfig] is declared outside config.go. *)
Inductive merger : Type :=
  | MergerOutput (o : Output)
  | MergerProviderConfig (c : ProviderConfig)
  | MergerResource (r : Resource)
  | MergerVariable (v : Variable_).

Section mergers.
Variable RawConfig_merge : RawConfig → RawConfig → RawConfig.

Definition Resource_merge (r r2 : Resource) : Resource :=
  let result := r in
  let result := {| rName := rName r2; rType := rType r2;
                   Count := Count result;
                   rRawConfig := RawConfig_merge (rRawConfig result) (rRawConfig r2);
                   Provisioners := Provisioners result;
                   DependsOn := DependsOn result |} in
  let result :=
    if 0 <? Count r2
    then {| rName := rName result; rType := rType result; Count := Count r2;
            rRawConfig := rRawConfig result;
            Provisioners := Provisioners result;
            DependsOn := DependsOn result |}
    else result in
  if (0 <? length (Provisioners r2))%nat
  then {| rName := rName result; rType := rType result; Count := Count result;
          rRawConfig := rRawConfig result; Provisioners := Provisioners r2;
          DependsOn := DependsOn result |}
  else result.

Definition mergerName (m : merger) : string :=
  match m with
  | MergerOutput o => oName o
  | MergerProviderConfig c => pcName c
  | MergerResource r => rType r +:+ "." +:+ rName r
  | MergerVariable v => vName v
  end.

(** [mergerMerge]: each implementation asserts that its argument is of
    its own type. *)
Definition mergerMerge (m1 m : merger) : outcome merger :=
  match m1 with
  | MergerOutput o =>
      match m with
      | MergerOutput o2 =>
          Returns (MergerOutput
                     {| oName := oName o2;
                        oRawConfig :=
                          RawConfig_merge (oRawConfig o) (oRawConfig o2) |})
      | _ => Panics BadTypeAssertion
      end
  | MergerProviderConfig c =>
      match m with
      | MergerProviderConfig c2 =>
          Returns (MergerProviderConfig
                     {| pcName := pcName c2;
                        pcRawConfig :=
                          RawConfig_merge (pcRawConfig c) (pcRawConfig c2) |})
      | _ => Panics BadTypeAssertion
      end
  | MergerResource r =>
      match m with
      | MergerResource r2 => Returns (MergerResource (Resource_merge r r2))
      | _ => Panics BadTypeAssertion
      end
  | MergerVariable v =>
      match m with
      | MergerVariable v2 => Returns (MergerVariable (Merge v v2))
      | _ => Panics BadTypeAssertion
      end
  end.

(** The dynamic type of a merger. *)
Definition same_type (m1 m2 : merger) : bool :=
  match m1, m2 with
  | MergerOutput _, MergerOutput _
  | MergerProviderConfig _, MergerProviderConfig _
  | MergerResource _, MergerResource _
  | MergerVariable _, MergerVariable _ => true
  | _, _ => false
  end.

End mergers.

(** *** Properties of the rest of config.go *)
Section config_facts.
Context `{W : Walkers}.

Lemma ProviderConfigName_from (t : string) (pcs : list ProviderConfig)
    (lk : string) :
  let r :=
    foldl (λ lk v,
             let k := pcName v in
             if String.prefix k t && (String.length lk <? String.length k)%nat
             then k else lk) lk pcs in
  (r = lk ∨ ∃ pc, pc ∈ pcs ∧ pcName pc = r ∧ String.prefix r t = true)
  ∧ (String.length lk ≤ String.length r)%nat
  ∧ ∀ pc, pc ∈ pcs → String.prefix (pcName pc) t = true →
          (String.length (pcName pc) ≤ String.length r)%nat.
Proof.
  revert lk. induction pcs as [|v pcs IH]; intros lk; cbn [foldl].
  - split_and!; [by left|done|]. by intros pc ?%elem_of_nil.
  - cbv zeta in *.
    destruct (String.prefix (pcName v) t) eqn:Hprefix; cbn [andb].
    + destruct (Nat.ltb_spec (String.length lk) (String.length (pcName v)))
        as [Hlt|Hge].
      * destruct (IH (pcName v)) as ([Hr|(pc & Hin & Hname & Hp)] & Hlen & Hmax).
        -- split_and!.
           ++ right. exists v. rewrite Hr. split_and!; [by left|done..].
           ++ lia.
           ++ intros pc [->|Hin]%elem_of_cons Hp; [done|by apply Hmax].
        -- split_and!.
           ++ right. exists pc. split_and!; [by right|done..].
           ++ lia.
           ++ intros pc' [->|Hin']%elem_of_cons Hp'; [done|by apply Hmax].
      * destruct (IH lk) as ([Hr|(pc & Hin & Hname & Hp)] & Hlen & Hmax).
        -- split_and!; [by left|done|].
           intros pc [->|Hin]%elem_of_cons Hp; [lia|by apply Hmax].
        -- split_and!; [|done|].
           ++ right. exists pc. split_and!; [by right|done..].
           ++ intros pc' [->|Hin']%elem_of_cons Hp'; [lia|by apply Hmax].
    + destruct (IH lk) as ([Hr|(pc & Hin & Hname & Hp)] & Hlen & Hmax).
      * split_and!; [by left|done|].
        intros pc [->|Hin]%elem_of_cons Hp; [congruence|by apply Hmax].
      * split_and!; [|done|].
        -- right. exists pc. split_and!; [by right|done..].
        -- intros pc' [->|Hin']%elem_of_cons Hp'; [congruence|by apply Hmax].
Qed.

(** X11: [ProviderConfigName] returns the longest name among the
    provider configurations that is a prefix of the type [t]: the result
    is the empty string or the name of a configuration and a prefix of
    [t], and no configuration whose name is a prefix of [t] has a longer
    name. *)
Theorem ProviderConfigName_longest_prefix (t : string)
    (pcs : list ProviderConfig) :
  (ProviderConfigName t pcs = ""
   ∨ ∃ pc, pc ∈ pcs ∧ pcName pc = ProviderConfigName t pcs
           ∧ String.prefix (ProviderConfigName t pcs) t = true)
  ∧ ∀ pc, pc ∈ pcs → String.prefix (pcName pc) t = true →
          (String.length (pcName pc)
           ≤ String.length (ProviderConfigName t pcs))%nat.
Proof.
  destruct (ProviderConfigName_from t pcs "") as (Hr & _ & Hmax).
  split; [exact Hr|exact Hmax].
Qed.

(** X12: [Variable.Merge] is associative: merging a third variable into
    the merge of two gives the same variable as merging the merge of the
    last two into the first. *)
Theorem Merge_assoc (v1 v2 v3 : Variable_) :
  Merge (Merge v1 v2) v3 = Merge v1 (Merge v2 v3).
Proof.
  destruct v1 as [n1 d1 s1], v2 as [n2 d2 s2], v3 as [n3 d3 s3].
  unfold Merge. cbn [vName Default Description].
  destruct d3, d2; repeat case_bool_decide; try done.
Qed.

(** X13: a merged variable is required exactly when both variables are,
    and it bears the name of the second. *)
Theorem Merge_Required (v v2 : Variable_) :
  Required (Merge v v2) = Required v && Required v2
  ∧ vName (Merge v v2) = vName v2.
Proof.
  destruct v as [n d s], v2 as [n2 d2 s2]. unfold Merge, Required.
  cbn [vName Default Description].
  destruct d2, d; case_bool_decide; done.
Qed.

(** X14: [mergerMerge] returns exactly when both mergers are of the same
    type, and then the result is of that type and bears the name of the
    second; on mergers of different types the type assertion panics. *)
Theorem mergerMerge_same_type (RawConfig_merge : RawConfig → RawConfig → RawConfig)
    (m1 m2 : merger) :
  match mergerMerge RawConfig_merge m1 m2 with
  | Returns m =>
      same_type m1 m2 = true ∧ same_type m m1 = true
      ∧ mergerName m = mergerName m2
  | Panics why => same_type m1 m2 = false ∧ why = BadTypeAssertion
  end.
Proof.
  destruct m1 as [o|c|r|v], m2 as [o2|c2|r2|v2]; simpl; try done.
  - split_and!; [done..|]. unfold Resource_merge.
    destruct (0 <? Count r2), (0 <? length (Provisioners r2))%nat; done.
  - split_and!; [done..|]. unfold Merge.
    destruct (Default v2); case_bool_decide; done.
Qed.

(** X15: when one of two resources has a count of at least 1, so has
    their merge; the merge has the id of the second resource and keeps
    the [DependsOn] of the first alone. *)
Theorem Resource_merge_count (RawConfig_merge : RawConfig → RawConfig → RawConfig)
    (r r2 : Resource) :
  1 ≤ Count r ∨ 1 ≤ Count r2 →
  1 ≤ Count (Resource_merge RawConfig_merge r r2)
  ∧ Id (Resource_merge RawConfig_merge r r2) = Id r2
  ∧ DependsOn (Resource_merge RawConfig_merge r r2) = DependsOn r.
Proof.
  intros Hcount. unfold Resource_merge, Id.
  destruct (Z.ltb_spec 0 (Count r2)),
    (0 <? length (Provisioners r2))%nat; cbn; split_and!; try done; lia.
Qed.

Lemma note_nonempty source result v :
  map_Forall (λ _ vs, vs ≠ []) result →
  map_Forall (λ _ vs, vs ≠ []) (note source result v).
Proof.
  intros Hres. unfold note. apply map_Forall_insert_2; [|done].
  by destruct (default [] (result !! source)).
Qed.

Lemma note_all_nonempty rg source rc result :
  map_Forall (λ _ vs, vs ≠ []) result →
  map_Forall (λ _ vs, vs ≠ []) (note_all rg source rc result).
Proof.
  unfold note_all. generalize (visit rg (rcVariables rc)). intros l.
  revert result. induction l as [|kv l IH]; intros result Hres; [done|].
  simpl. by apply IH, note_nonempty.
Qed.

Lemma note_each_nonempty {X} rg (source : X → string) (raw : X → RawConfig)
    (l : list X) result :
  map_Forall (λ _ vs, vs ≠ []) result →
  map_Forall (λ _ vs, vs ≠ [])
    (foldl (λ result x, note_all rg (source x) (raw x) result) result l).
Proof.
  revert result. induction l as [|x l IH]; intros result Hres; [done|].
  simpl. by apply IH, note_all_nonempty.
Qed.

(** X16: [allVariables] files a variable under a source exactly when the
    raw configuration of the provider configuration, resource or output
    that the source names holds it, whatever the iteration order; no
    source is filed with an empty list. *)
Theorem allVariables_files_references rg (c : Config) :
  (∀ source v,
     (∃ vs, allVariables rg c !! source = Some vs ∧ v ∈ vs)
     ↔ refers c source v)
  ∧ ∀ source vs, allVariables rg c !! source = Some vs → vs ≠ [].
Proof.
  split.
  - intros source v. apply (allVariables_filed rg c source v).
  - assert (map_Forall (λ _ vs, vs ≠ []) (allVariables rg c)) as Hall.
    { unfold allVariables. do 3 apply note_each_nonempty.
      apply map_Forall_empty. }
    intros source vs Hvs. by apply (Hall source vs).
Qed.

Lemma registered_count (l : list Resource) :
  length (registered l).2 = size (registered l).1.2.
Proof.
  induction l as [|r l IH] using rev_ind; [done|].
  unfold registered in *. rewrite foldl_snoc.
  destruct (foldl register (∅, ∅, []) l) as [[resources dupped] errs].
  simpl in IH. unfold register.
  destruct (resources !! Id r); [|done].
  destruct (decide (Id r ∈ dupped)); simpl; [done|].
  rewrite length_app, size_union, size_singleton by set_solver.
  simpl. lia.
Qed.

(** X17: the registration loop of [Validate] reports a resource id that
    is declared several times once, however often it is declared: it
    emits as many errors as there are ids declared twice or more, each
    the repetition message of such an id. *)
Theorem repeated_id_reported_once (c : Config) :
  let st := registered (Resources c) in
  length st.2 = size st.1.2
  ∧ (∀ id, id ∈ st.1.2 ↔ (2 ≤ occurrences c id)%nat)
  ∧ ∀ e, e ∈ st.2
         ↔ ∃ id, (2 ≤ occurrences c id)%nat
                 ∧ e = id +:+ ": resource repeated multiple times".
Proof.
  split_and!.
  - apply registered_count.
  - apply (registered_spec (Resources c)).
  - intros e. apply registered_errs.
Qed.

End config_facts.

Lemma Resource_merge_count_witness :
  (1 ≤ Count (web 1) ∨ 1 ≤ Count (web 0))
  ∧ 1 ≤ Count (Resource_merge (λ rc _, rc) (web 1) (web 0))
  ∧ Id (Resource_merge (λ rc _, rc) (web 1) (web 0)) = Id (web 0)
  ∧ DependsOn (Resource_merge (λ rc _, rc) (web 1) (web 0))
    = DependsOn (web 1).
Proof.
  assert (1 ≤ Count (web 1) ∨ 1 ≤ Count (web 0)) as Hcount by (by left).
  split; [exact Hcount|].
  exact (Resource_merge_count (λ rc _, rc) (web 1) (web 0) Hcount).
Defined.

End config.

(** ** Package [heroku]: builtin/providers/heroku/resource_heroku_app.go *)
Module heroku.

Section config_vars.
(** [client.ConfigVarUpdate(id, vars)] of heroku-go: the error it
    returns.  A nil [*string] in [vars] unsets the variable. *)
Variable ConfigVarUpdate : string → gmap string (option string) → option error.

(** The first loop of [update_config_vars]: every key of the old
    configuration is set to nil. *)
Definition unset_keys (rg : ranger) (vars : gmap string (option string))
    (old : gmap string value) : gmap string (option string) :=
  foldl (λ vars kv, <[kv.1 := None]> vars) vars (visit rg old).

Fixpoint unset_old (rg : ranger) (o : list value)
    (vars : gmap string (option string))
    : outcome (gmap string (option string)) :=
  match o with
  | [] => Returns vars
  | v :: rest =>
      old ←! aws.assert_map v;
      unset_old rg rest (unset_keys rg vars old)
  end.

(** The second loop: every key of the new configuration is set to its
    value, which has to be a string. *)
Fixpoint set_keys (entries : list (string * value))
    (vars : gmap string (option string))
    : outcome (gmap string (option string)) :=
  match entries with
  | [] => Returns vars
  | (k, v) :: rest =>
      val ←! aws.assert_string v;
      set_keys rest (<[k := Some val]> vars)
  end.

Fixpoint set_new (rg : ranger) (n : list value)
    (vars : gmap string (option string))
    : outcome (gmap string (option string)) :=
  match n with
  | [] => Returns vars
  | v :: rest =>
      new ←! aws.assert_map v;
      vars ←! set_keys (visit rg new) vars;
      set_new rg rest vars
  end.

Definition update_config_vars (rg : ranger) (id : string)
    (o n : list value) : outcome (option error) :=
  vars ←! unset_old rg o ∅;
  vars ←! set_new rg n vars;
  match ConfigVarUpdate id vars with
  | Some err => Returns (Some ("Error updating config vars: " +:+ err))
  | None => Returns None
  end.

(** The value the last of the new configurations that has [k] gives
    it. *)
Definition newest (news : list (gmap string string)) (k : string)
    : option string :=
  foldl (λ found new, match new !! k with Some v => Some v | None => found end)
        None news.

Lemma unset_keys_lookup rg (vars : gmap string (option string))
    (old : gmap string value) k :
  unset_keys rg vars old !! k
  = if bool_decide (is_Some (old !! k)) then Some None else vars !! k.
Proof.
  unfold unset_keys.
  assert (∀ (l : list (string * value)) (vars : gmap string (option string)),
            foldl (λ vars kv, <[kv.1 := None]> vars) vars l !! k
            = if bool_decide (k ∈ l.*1) then Some None else vars !! k)
    as Hloop.
  { clear vars. induction l as [|[k' v'] l IH]; intros vars; [done|].
    cbn [foldl fst]. rewrite IH, fmap_cons. cbn [fst].
    case_bool_decide as Hl.
    - rewrite bool_decide_eq_true_2; [done|]. by right.
    - rewrite lookup_insert. case_decide as Hk.
      + subst. rewrite bool_decide_eq_true_2; [done|]. by left.
      + rewrite bool_decide_eq_false_2; [done|].
        by intros [->|?]%elem_of_cons. }
  rewrite Hloop.
  assert (k ∈ (visit rg old).*1 ↔ is_Some (old !! k)) as Hin.
  { rewrite list_elem_of_fmap. split.
    - intros ([k' v] & -> & Hv%visit_elem_of). by exists v.
    - intros [v Hv]. exists (k, v). split; [done|]. by apply visit_elem_of. }
  by rewrite (bool_decide_ext _ _ Hin).
Qed.

Lemma unset_old_lookup rg (olds : list (gmap string value))
    (vars : gmap string (option string)) :
  ∃ vars', unset_old rg (VMap <$> olds) vars = Returns vars'
    ∧ ∀ k, vars' !! k
           = if bool_decide (Exists (λ old, is_Some (old !! k)) olds)
             then Some None else vars !! k.
Proof.
  revert vars. induction olds as [|old olds IH]; intros vars.
  - exists vars. split; [done|]. intros k.
    rewrite bool_decide_eq_false_2; [done|]. by intros ?%Exists_nil.
  - destruct (IH (unset_keys rg vars old)) as (vars' & Hrun & Hlook).
    exists vars'. split; [done|]. intros k.
    rewrite Hlook, unset_keys_lookup.
    repeat case_bool_decide; try done.
    + exfalso. rewrite Exists_cons in *. tauto.
    + exfalso. rewrite Exists_cons in *. tauto.
    + exfalso. rewrite Exists_cons in *. tauto.
Qed.

Lemma set_keys_lookup (entries : list (string * value))
    (vars : gmap string (option string)) :
  NoDup entries.*1 →
  Forall (λ kv, ∃ s, kv.2 = VString s) entries →
  ∃ vars', set_keys entries vars = Returns vars'
    ∧ (∀ k s, (k, VString s) ∈ entries → vars' !! k = Some (Some s))
    ∧ (∀ k, k ∉ entries.*1 → vars' !! k = vars !! k).
Proof.
  revert vars. induction entries as [|[k' v'] entries IH]; intros vars Hnd Hstr.
  - exists vars. split_and!; [done| |done]. by intros k s ?%elem_of_nil.
  - rewrite fmap_cons in Hnd. apply NoDup_cons in Hnd as [Hnotin Hnd].
    apply Forall_cons in Hstr as [[s' Hs'] Hstr]. simpl in Hs', Hnotin. subst.
    destruct (IH (<[k' := Some s']> vars) Hnd Hstr)
      as (vars' & Hrun & Hset & Hkeep).
    exists vars'. split_and!; [done| |].
    + intros k s [[= -> ->]|Hin]%elem_of_cons; [|by apply Hset].
      by rewrite (Hkeep k' Hnotin), lookup_insert_eq.
    + intros k [Hne Hk]%not_elem_of_cons.
      by rewrite (Hkeep k Hk), lookup_insert_ne.
Qed.

Lemma set_map_lookup rg (new : gmap string string)
    (vars : gmap string (option string)) :
  ∃ vars', set_keys (visit rg (VString <$> new)) vars = Returns vars'
    ∧ ∀ k, vars' !! k
           = match new !! k with
             | Some s => Some (Some s)
             | None => vars !! k
             end.
Proof.
  destruct (set_keys_lookup (visit rg (VString <$> new)) vars)
    as (vars' & Hrun & Hset & Hkeep).
  - apply visit_NoDup_fst.
  - apply Forall_forall. intros [k v] Hin%visit_elem_of.
    rewrite lookup_fmap in Hin. destruct (new !! k) as [s|]; [|done].
    injection Hin as <-. by exists s.
  - exists vars'. split; [done|]. intros k.
    destruct (new !! k) as [s|] eqn:Hk.
    + apply Hset, visit_elem_of. by rewrite lookup_fmap, Hk.
    + apply Hkeep. rewrite list_elem_of_fmap.
      intros ([k' v] & -> & Hin%visit_elem_of).
      rewrite lookup_fmap in Hin. simpl in *. by rewrite Hk in Hin.
Qed.

Lemma newest_from (news : list (gmap string string)) (k : string)
    (found : option string) :
  foldl (λ found new, match new !! k with Some v => Some v | None => found end)
        found news
  = match newest news k with
    | Some v => Some v
    | None => found
    end.
Proof.
  unfold newest. revert found.
  induction news as [|new news IH]; intros found; [done|].
  cbn [foldl]. rewrite IH, (IH (match new !! k with Some v => _ | None => _ end)).
  destruct (foldl _ None news); [done|]. by destruct (new !! k).
Qed.

Lemma set_new_lookup rg (news : list (gmap string string))
    (vars : gmap string (option string)) :
  ∃ vars', set_new rg ((λ new, VMap (VString <$> new)) <$> news) vars
           = Returns vars'
    ∧ ∀ k, vars' !! k
           = match newest news k with
             | Some s => Some (Some s)
             | None => vars !! k
             end.
Proof.
  revert vars. induction news as [|new news IH]; intros vars.
  - exists vars. by split.
  - destruct (set_map_lookup rg new vars) as (vars1 & Hrun1 & Hlook1).
    destruct (IH vars1) as (vars' & Hrun & Hlook).
    exists vars'. split.
    + rewrite fmap_cons. cbn [set_new aws.assert_map obind].
      rewrite Hrun1. cbn [obind]. exact Hrun.
    + intros k. rewrite Hlook, Hlook1. unfold newest at 2. cbn [foldl].
      rewrite newest_from. destruct (newest news k); [done|].
      by destruct (new !! k).
Qed.

(** X20: for old configurations that are maps and new ones that are maps
    of strings, [update_config_vars] sends the client one map of
    variables, the same whatever the iteration order: a key of a new
    configuration with the value the last new configuration holding it
    gives it, a key that only old configurations hold as nil (to be
    unset), and no other key.  It returns nil when the client does, and
    the client's error behind "Error updating config vars: " otherwise. *)
Theorem update_config_vars_sends rg (id : string)
    (olds : list (gmap string value)) (news : list (gmap string string)) :
  ∃ vars,
    (∀ k, vars !! k
          = match newest news k with
            | Some v => Some (Some v)
            | None =>
                if bool_decide (Exists (λ old, is_Some (old !! k)) olds)
                then Some None else None
            end)
    ∧ update_config_vars rg id (VMap <$> olds)
        ((λ new, VMap (VString <$> new)) <$> news)
      = Returns match ConfigVarUpdate id vars with
                | Some err => Some ("Error updating config vars: " +:+ err)
                | None => None
                end.
Proof.
  destruct (unset_old_lookup rg olds ∅) as (vars0 & Hrun0 & Hlook0).
  destruct (set_new_lookup rg news vars0) as (vars & Hrun & Hlook).
  exists vars. split.
  - intros k. rewrite Hlook, Hlook0, lookup_empty. done.
  - unfold update_config_vars. rewrite Hrun0. cbn [obind].
    rewrite Hrun. cbn [obind]. by destruct (ConfigVarUpdate id vars).
Qed.

End config_vars.
End heroku.
